(** * Kanban board backend: conflict resolver, task service, ordering engine,
      in-memory store and message router, embedded from the TypeScript sources.

    Conventions of the embedding.
    - A JavaScript [number] holding a position is a binary64 float, modelled
      by [spec_float] with precision 53 and maximal exponent 1024; the
      arithmetic is the correctly rounded one of [SpecFloat].
    - Versions and per-field version stamps are integers ([Z]); the 32-bit
      bound of the SQL [INTEGER] column and the 2^53 bound of exact integers in
      a double are outside the model.
    - A JavaScript object used as a record with optional keys
      ([Partial<TaskMutation>]) is the list of its entries in insertion order.
    - The task table and the in-memory [tasks] array are lists of rows.
    - A query computes on [float8] as JavaScript does on doubles, and
      [ORDER BY] keeps rows with equal keys in table order; the overflow
      error that PostgreSQL raises instead of returning an infinity, and its
      free choice among equal keys, are outside the model.
    - Server-assigned ids and timestamps are inputs of the operations. *)

From Stdlib Require Import ZArith Lia Bool Ascii String.
From Stdlib Require Import Floats.SpecFloat Sorting.Sorted.
From stdpp Require Import base list strings sorting.

Local Open Scope string_scope.
Local Open Scope list_scope.
Local Open Scope Z_scope.

(** ** JavaScript numbers (binary64) *)

Module Num.

Definition number : Type := spec_float.

Definition prec : Z := 53.
Definition emax : Z := 1024.

Definition add : number -> number -> number := SFadd prec emax.
Definition sub : number -> number -> number := SFsub prec emax.
Definition mul : number -> number -> number := SFmul prec emax.
Definition div : number -> number -> number := SFdiv prec emax.
Definition abs : number -> number := SFabs.
Definition ltb : number -> number -> bool := SFltb.
Definition leb : number -> number -> bool := SFleb.
Definition eqb : number -> number -> bool := SFeqb.

(** The double nearest to the dyadic number [m * 2^e]. *)
Definition dyadic (m e : Z) : number := binary_normalize prec emax m e false.

(** The double holding the integer [z] (exact for [|z| <= 2^53]). *)
Definition of_Z (z : Z) : number := dyadic z 0.
Definition of_nat (n : nat) : number := of_Z (Z.of_nat n).

Definition zero : number := S754_zero false.
Definition one : number := Eval vm_compute in of_Z 1.
Definition two : number := Eval vm_compute in of_Z 2.

(** [x > y], [x >= y] of JavaScript: false whenever a NaN is involved. *)
Definition gtb (x y : number) : bool := ltb y x.

Definition is_nan (x : number) : bool :=
  match x with S754_nan => true | _ => false end.

#[global] Instance number_eq_dec : EqDecision number.
Proof. solve_decision. Defined.

(** The exponent of the last bit of a double whose first bit is at
    [2^(e-1)]. *)
Definition fexp (e : Z) : Z := SpecFloat.fexp prec emax e.

(** The positive [m * 2^n]. *)
Definition pshl (m : positive) (n : nat) : positive := Nat.iter n xO m.

(** A well-formed binary64 value. *)
Definition valid (x : number) : bool := valid_binary prec emax x.

End Num.

Abbreviation number := Num.number.

(** ** Data model (types/index.ts) *)

Inductive Column := todo | inprogress | done_.

#[global] Instance Column_eq_dec : EqDecision Column.
Proof. solve_decision. Defined.

(** The string a column is stored as ([column_id TEXT]). *)
Definition column_name (c : Column) : string :=
  match c with
  | todo => "todo"
  | inprogress => "inprogress"
  | done_ => "done"
  end.

Record Task := mkTask {
  id : string;
  title : string;
  description : string;
  columnId : Column;
  position : number;
  version : Z;
  titleVersion : Z;
  descriptionVersion : Z;
  columnVersion : Z;
  positionVersion : Z;
  createdAt : string;
  updatedAt : string;
}.

#[global] Instance Task_eq_dec : EqDecision Task.
Proof. solve_decision. Defined.

(** Keys of [TaskMutation]. *)
Inductive Field := f_title | f_description | f_columnId | f_position.

#[global] Instance Field_eq_dec : EqDecision Field.
Proof. solve_decision. Defined.

Definition field_name (f : Field) : string :=
  match f with
  | f_title => "title"
  | f_description => "description"
  | f_columnId => "columnId"
  | f_position => "position"
  end.

(** One entry [key: value] of a [Partial<TaskMutation>] object; the
    constructor fixes the type of the value as the interface does. *)
Inductive Change :=
  | ch_title (v : string)
  | ch_description (v : string)
  | ch_columnId (v : Column)
  | ch_position (v : number).

#[global] Instance Change_eq_dec : EqDecision Change.
Proof. solve_decision. Defined.

Definition change_field (c : Change) : Field :=
  match c with
  | ch_title _ => f_title
  | ch_description _ => f_description
  | ch_columnId _ => f_columnId
  | ch_position _ => f_position
  end.

(** A [Partial<TaskMutation>]: its entries, in the order of [Object.entries]. *)
Abbreviation TaskMutation := (list Change).

Definition keys (o : TaskMutation) : list Field := change_field <$> o.

(** A JavaScript object has each key at most once. *)
Definition is_object (o : TaskMutation) : Prop := NoDup (keys o).

(** [o[f]]: the entry under key [f], if any. *)
Definition obj_get (f : Field) (o : TaskMutation) : option Change :=
  snd <$> list_find (λ c, change_field c = f) o.

(** [o[f] = v]: overwrite in place when the key exists, else append. *)
Definition obj_set (c : Change) (o : TaskMutation) : TaskMutation :=
  match list_find (λ c', change_field c' = change_field c) o with
  | Some (i, _) => <[i:=c]> o
  | None => o ++ [c]
  end.

Definition get_title (o : TaskMutation) : option string :=
  match obj_get f_title o with Some (ch_title v) => Some v | _ => None end.
Definition get_description (o : TaskMutation) : option string :=
  match obj_get f_description o with Some (ch_description v) => Some v | _ => None end.
Definition get_columnId (o : TaskMutation) : option Column :=
  match obj_get f_columnId o with Some (ch_columnId v) => Some v | _ => None end.
Definition get_position (o : TaskMutation) : option number :=
  match obj_get f_position o with Some (ch_position v) => Some v | _ => None end.

(** ** Conflict resolver (services/conflictResolver.ts) *)

Record ConflictAnalysis := mkAnalysis {
  mergedChanges : TaskMutation;
  mergedFields : list string;
  rejectedFields : list string;
  hasConflict : bool;
  fullyRejected : bool;
}.

(** [current[FIELD_VERSION_MAP[field]]] *)
Definition FIELD_VERSION_MAP (f : Field) (current : Task) : Z :=
  match f with
  | f_title => titleVersion current
  | f_description => descriptionVersion current
  | f_columnId => columnVersion current
  | f_position => positionVersion current
  end.

(** The loop of [analyseConflict]: the three accumulators after the entries
    [changes] have been visited. *)
Fixpoint analyse_loop (current : Task) (baseVersion : Z) (changes : list Change)
    (acc : TaskMutation * list string * list string)
    : TaskMutation * list string * list string :=
  match changes with
  | [] => acc
  | c :: rest =>
      let '(mc, mf, rf) := acc in
      let fieldVersion := FIELD_VERSION_MAP (change_field c) current in
      if fieldVersion <=? baseVersion
      then analyse_loop current baseVersion rest
             (obj_set c mc, mf ++ [field_name (change_field c)], rf)
      else analyse_loop current baseVersion rest
             (mc, mf, rf ++ [field_name (change_field c)])
  end.

Definition analyseConflict (current : Task) (baseVersion : Z)
    (changes : TaskMutation) : ConflictAnalysis :=
  let '(mc, mf, rf) := analyse_loop current baseVersion changes ([], [], []) in
  {| mergedChanges := mc;
     mergedFields := mf;
     rejectedFields := rf;
     hasConflict := (0 <? length rf)%nat;
     fullyRejected := (length mf =? 0)%nat && (0 <? length rf)%nat |}.

(** [xs.join(', ')] *)
Definition join_comma (xs : list string) : string := String.concat ", " xs.

Definition buildResolutionReason (analysis : ConflictAnalysis) : string :=
  if fullyRejected analysis then
    "All changed fields (" +:+ join_comma (rejectedFields analysis) +:+ ") were already " +:+
    "modified by another client. Server state preserved (last-write-wins)."
  else if hasConflict analysis then
    "Partial merge: applied [" +:+ join_comma (mergedFields analysis) +:+ "]. " +:+
    "Fields [" +:+ join_comma (rejectedFields analysis) +:+ "] conflicted — server state preserved."
  else "No conflict — changes applied cleanly.".

(** ** Ordering algorithm (services/orderingAlgorithm.ts) *)

Definition INITIAL_STEP : number := Eval vm_compute in Num.of_Z 65536.
Definition MIN_GAP : number := Eval vm_compute in Num.dyadic 1 (-1).

(** [null] is [None]. *)
Definition positionBetween (beforePosition afterPosition : option number)
    : option number :=
  match beforePosition, afterPosition with
  | None, None => Some INITIAL_STEP
  | None, Some afterPosition =>
      let pos := Num.div afterPosition Num.two in
      if Num.ltb pos MIN_GAP then None else Some pos
  | Some beforePosition, None => Some (Num.add beforePosition INITIAL_STEP)
  | Some beforePosition, Some afterPosition =>
      let gap := Num.sub afterPosition beforePosition in
      if Num.ltb gap MIN_GAP then None
      else Some (Num.add beforePosition (Num.div gap Num.two))
  end.

(** ** Messages and payloads (types/index.ts) *)

Record CreateTaskPayload := mkCreate {
  c_clientId : string;
  c_tempId : string;
  c_title : string;
  c_description : string;
  c_columnId : Column;
  c_position : number;
}.

Record UpdateTaskPayload := mkUpdate {
  u_clientId : string;
  u_taskId : string;
  u_baseVersion : Z;
  u_changes : TaskMutation;
}.

Record MoveTaskPayload := mkMove {
  m_clientId : string;
  m_taskId : string;
  m_baseVersion : Z;
  m_columnId : Column;
  m_position : number;
}.

Record DeleteTaskPayload := mkDelete {
  d_clientId : string;
  d_taskId : string;
  d_baseVersion : Z;
}.

(** The [changes] of an [UpdateTaskPayload] have the keys [title] and
    [description] only. *)
Definition update_changes (o : TaskMutation) : Prop :=
  is_object o ∧ Forall (λ c, change_field c = f_title ∨ change_field c = f_description) o.

Inductive Resolution := MERGED | REJECTED.

#[global] Instance Resolution_eq_dec : EqDecision Resolution.
Proof. solve_decision. Defined.

Record ConflictResolvedPayload := mkConflict {
  cr_taskId : string;
  cr_resolution : Resolution;
  cr_task : Task;
  cr_mergedFields : list string;
  cr_rejectedFields : list string;
  cr_reason : string;
}.

#[global] Instance ConflictResolvedPayload_eq_dec : EqDecision ConflictResolvedPayload.
Proof. solve_decision. Defined.

(** The result of [updateTask]. *)
Record UpdateResult := mkUpdateResult {
  ur_task : Task;
  ur_conflict : option ConflictResolvedPayload;
}.

(** The result of [moveTask]. *)
Record MoveResult := mkMoveResult {
  mr_task : Task;
  mr_conflict : option ConflictResolvedPayload;
  mr_needsRebalance : bool;
}.

(** The result of [deleteTask]. *)
Record DeleteResult := mkDeleteResult {
  dr_deleted : bool;
  dr_task : option Task;
}.

(** A computation that returns or throws [new Error(message)]. *)
Inductive Result (A : Type) :=
  | Ok (a : A)
  | Throw (message : string).
Arguments Ok {A} a.
Arguments Throw {A} message.

(** ** Field setters on a task row *)

Definition with_title (v : string) (t : Task) : Task :=
  mkTask (id t) v (description t) (columnId t) (position t) (version t)
    (titleVersion t) (descriptionVersion t) (columnVersion t) (positionVersion t)
    (createdAt t) (updatedAt t).
Definition with_description (v : string) (t : Task) : Task :=
  mkTask (id t) (title t) v (columnId t) (position t) (version t)
    (titleVersion t) (descriptionVersion t) (columnVersion t) (positionVersion t)
    (createdAt t) (updatedAt t).
Definition with_columnId (v : Column) (t : Task) : Task :=
  mkTask (id t) (title t) (description t) v (position t) (version t)
    (titleVersion t) (descriptionVersion t) (columnVersion t) (positionVersion t)
    (createdAt t) (updatedAt t).
Definition with_position (v : number) (t : Task) : Task :=
  mkTask (id t) (title t) (description t) (columnId t) v (version t)
    (titleVersion t) (descriptionVersion t) (columnVersion t) (positionVersion t)
    (createdAt t) (updatedAt t).
Definition with_version (v : Z) (t : Task) : Task :=
  mkTask (id t) (title t) (description t) (columnId t) (position t) v
    (titleVersion t) (descriptionVersion t) (columnVersion t) (positionVersion t)
    (createdAt t) (updatedAt t).
Definition with_titleVersion (v : Z) (t : Task) : Task :=
  mkTask (id t) (title t) (description t) (columnId t) (position t) (version t)
    v (descriptionVersion t) (columnVersion t) (positionVersion t)
    (createdAt t) (updatedAt t).
Definition with_descriptionVersion (v : Z) (t : Task) : Task :=
  mkTask (id t) (title t) (description t) (columnId t) (position t) (version t)
    (titleVersion t) v (columnVersion t) (positionVersion t)
    (createdAt t) (updatedAt t).
Definition with_columnVersion (v : Z) (t : Task) : Task :=
  mkTask (id t) (title t) (description t) (columnId t) (position t) (version t)
    (titleVersion t) (descriptionVersion t) v (positionVersion t)
    (createdAt t) (updatedAt t).
Definition with_positionVersion (v : Z) (t : Task) : Task :=
  mkTask (id t) (title t) (description t) (columnId t) (position t) (version t)
    (titleVersion t) (descriptionVersion t) (columnVersion t) v
    (createdAt t) (updatedAt t).
Definition with_updatedAt (v : string) (t : Task) : Task :=
  mkTask (id t) (title t) (description t) (columnId t) (position t) (version t)
    (titleVersion t) (descriptionVersion t) (columnVersion t) (positionVersion t)
    (createdAt t) v.

(** [s.trim()] on ASCII white space. *)
Definition is_space (a : ascii) : bool :=
  let n := nat_of_ascii a in
  ((9 <=? n) && (n <=? 13))%nat || (n =? 32)%nat.

Fixpoint trim_start (s : string) : string :=
  match s with
  | String a s' => if is_space a then trim_start s' else s
  | EmptyString => EmptyString
  end.

Fixpoint trim_end (s : string) : string :=
  match s with
  | String a s' =>
      match trim_end s' with
      | EmptyString => if is_space a then EmptyString else String a EmptyString
      | r => String a r
      end
  | EmptyString => EmptyString
  end.

Definition trim (s : string) : string := trim_end (trim_start s).

(** [payload.title.trim() || 'New Task'] *)
Definition title_or_default (s : string) : string :=
  match trim s with
  | EmptyString => "New Task"
  | t => t
  end.

(** ** The [tasks] table (db/migrations/001_initial.sql) and the queries the
       services run against it

    A table is the list of its rows; the primary key makes ids unique.  A row
    is a [Task]: [rowToTask] only renames the columns. *)

Module Sql.

Abbreviation Table := (list Task).

(** The order of [float8] values: NaN equals NaN and is above the rest. *)
Definition float8_le (x y : number) : bool :=
  if Num.is_nan y then true
  else if Num.is_nan x then false
  else Num.leb x y.

(** [ORDER BY key ASC]: rows with equal keys stay in table order. *)
Fixpoint insert_by {A} (le : A → A → bool) (x : A) (l : list A) : list A :=
  match l with
  | [] => [x]
  | y :: l' => if le x y then x :: l else y :: insert_by le x l'
  end.

Definition order_by {A} (key : A → number) (l : list A) : list A :=
  foldr (insert_by (λ a b, float8_le (key a) (key b))) [] l.

(** [MAX(position)]: [None] is SQL NULL (no row). *)
Definition float8_max (l : list number) : option number :=
  match l with
  | [] => None
  | x :: l' => Some (foldl (λ acc y, if float8_le acc y then y else acc) x l')
  end.

(** [SELECT * FROM tasks WHERE id = $1] *)
Definition select_by_id (taskId : string) (tbl : Table) : list Task :=
  filter (λ r, id r = taskId) tbl.

(** [SELECT * FROM tasks WHERE column_id = $1] *)
Definition select_by_column (col : Column) (tbl : Table) : list Task :=
  filter (λ r, columnId r = col) tbl.

(** [UPDATE tasks SET ... WHERE id = $1 RETURNING *]; the trigger
    [tasks_updated_at] writes [updated_at = NOW()] into every updated row. *)
Definition update_by_id (now : string) (taskId : string) (set : Task → Task)
    (tbl : Table) : Table * list Task :=
  let upd r := with_updatedAt now (set r) in
  ((λ r, if decide (id r = taskId) then upd r else r) <$> tbl,
   upd <$> select_by_id taskId tbl).

(** [DELETE FROM tasks WHERE id = $1 RETURNING *] *)
Definition delete_by_id (taskId : string) (tbl : Table) : Table * list Task :=
  (filter (λ r, id r ≠ taskId) tbl, select_by_id taskId tbl).

(** [INSERT INTO tasks (title, description, column_id, position) VALUES ...
    RETURNING *]: the id, the versions and the timestamps take their
    defaults ([gen_random_uuid()], 1, [NOW()]). *)
Definition insert (newId now : string) (title description : string)
    (col : Column) (pos : number) (tbl : Table) : Table * Task :=
  let row := mkTask newId title description col pos 1 1 1 1 1 now now in
  (tbl ++ [row], row).

End Sql.

(** ** Ordering service (services/orderingService.ts) *)

(** [SELECT COALESCE(MAX(position), 0) AS max_pos FROM tasks WHERE column_id = $1],
    then [max_pos + INITIAL_STEP]. *)
Definition positionAtEnd (columnId_ : Column) (tbl : Sql.Table) : number :=
  let max_pos :=
    default Num.zero (Sql.float8_max (position <$> Sql.select_by_column columnId_ tbl)) in
  Num.add max_pos INITIAL_STEP.

(** The loop of [rebalanceColumn] from index [i] on. *)
Fixpoint rebalance_loop (now : string) (i : nat) (existingRows : list Task)
    (tbl : Sql.Table) (updates : list Task) : Result (list Task * Sql.Table) :=
  match existingRows with
  | [] => Ok (updates, tbl)
  | row :: rest =>
      let newPos := Num.mul (Num.add (Num.of_nat i) Num.one) INITIAL_STEP in
      let newVersion := version row + 1 in
      let '(tbl', rows) :=
        Sql.update_by_id now (id row)
          (λ r, with_positionVersion newVersion (with_version newVersion (with_position newPos r)))
          tbl in
      match rows with
      | [] => Throw "TypeError: rows[0] is undefined"
      | r :: _ => rebalance_loop now (S i) rest tbl' (updates ++ [r])
      end
  end.

Definition rebalanceColumn (now : string) (columnId_ : Column) (tbl : Sql.Table)
    : Result (list Task * Sql.Table) :=
  let existingRows := Sql.order_by position (Sql.select_by_column columnId_ tbl) in
  rebalance_loop now 0 existingRows tbl [].

(** ** Task service (services/taskService.ts)

    Each operation is one transaction: it returns its result and the new
    table, or throws and leaves the table as it was (rollback). *)

Definition createTask (newId now : string) (payload : CreateTaskPayload)
    (tbl : Sql.Table) : Result (Task * Sql.Table) :=
  let position_ :=
    if Num.gtb (c_position payload) Num.zero then c_position payload
    else positionAtEnd (c_columnId payload) tbl in
  let '(tbl', row) :=
    Sql.insert newId now (title_or_default (c_title payload)) (c_description payload)
      (c_columnId payload) position_ tbl in
  Ok (row, tbl').

Definition not_found (taskId : string) : string := "Task " +:+ taskId +:+ " not found".

Definition rejected_conflict (current : Task) (analysis : ConflictAnalysis)
    : ConflictResolvedPayload :=
  {| cr_taskId := id current;
     cr_resolution := REJECTED;
     cr_task := current;
     cr_mergedFields := [];
     cr_rejectedFields := rejectedFields analysis;
     cr_reason := buildResolutionReason analysis |}.

Definition merged_conflict (updated : Task) (analysis : ConflictAnalysis)
    : option ConflictResolvedPayload :=
  if hasConflict analysis then
    Some {| cr_taskId := id updated;
            cr_resolution := MERGED;
            cr_task := updated;
            cr_mergedFields := mergedFields analysis;
            cr_rejectedFields := rejectedFields analysis;
            cr_reason := buildResolutionReason analysis |}
  else None.

(** The [SET] clause that [updateTask] builds from the merged changes. *)
Definition update_sets (merged : TaskMutation) (newVersion : Z) (r : Task) : Task :=
  let r1 :=
    match get_title merged with
    | Some v => with_titleVersion newVersion (with_title v r)
    | None => r
    end in
  let r2 :=
    match get_description merged with
    | Some v => with_descriptionVersion newVersion (with_description v r1)
    | None => r1
    end in
  with_version newVersion r2.

Definition updateTask (now : string) (payload : UpdateTaskPayload)
    (tbl : Sql.Table) : Result (UpdateResult * Sql.Table) :=
  match Sql.select_by_id (u_taskId payload) tbl with
  | [] => Throw (not_found (u_taskId payload))
  | current :: _ =>
      let analysis := analyseConflict current (u_baseVersion payload) (u_changes payload) in
      if fullyRejected analysis then
        Ok ({| ur_task := current;
               ur_conflict := Some (rejected_conflict current analysis) |}, tbl)
      else
        let newVersion := version current + 1 in
        let '(tbl', rows) :=
          Sql.update_by_id now (u_taskId payload)
            (update_sets (mergedChanges analysis) newVersion) tbl in
        match rows with
        | [] => Throw "TypeError: rows[0] is undefined"
        | updated :: _ =>
            Ok ({| ur_task := updated;
                   ur_conflict := merged_conflict updated analysis |}, tbl')
        end
  end.

(** [SELECT position FROM tasks WHERE column_id = $1 AND id != $2
     ORDER BY ABS(position - $3) ASC LIMIT 2] *)
Definition nearest_neighbours (col : Column) (taskId : string) (pos : number)
    (tbl : Sql.Table) : list number :=
  take 2 (Sql.order_by (λ p, Num.abs (Num.sub p pos))
            (position <$> filter (λ r, columnId r = col ∧ id r ≠ taskId) tbl)).

Definition moveTask (now : string) (payload : MoveTaskPayload)
    (tbl : Sql.Table) : Result (MoveResult * Sql.Table) :=
  match Sql.select_by_id (m_taskId payload) tbl with
  | [] => Throw (not_found (m_taskId payload))
  | current :: _ =>
      let changes := [ch_columnId (m_columnId payload); ch_position (m_position payload)] in
      let analysis := analyseConflict current (m_baseVersion payload) changes in
      if fullyRejected analysis then
        Ok ({| mr_task := current;
               mr_conflict := Some (rejected_conflict current analysis);
               mr_needsRebalance := false |}, tbl)
      else
        let newVersion := version current + 1 in
        let newColumnId := default (columnId current) (get_columnId (mergedChanges analysis)) in
        let newPosition := default (position current) (get_position (mergedChanges analysis)) in
        let '(tbl', rows) :=
          Sql.update_by_id now (m_taskId payload)
            (λ r, with_version newVersion (with_positionVersion newVersion
                    (with_columnVersion newVersion
                      (with_position newPosition (with_columnId newColumnId r)))))
            tbl in
        match rows with
        | [] => Throw "TypeError: rows[0] is undefined"
        | updated :: _ =>
            let neighbours := nearest_neighbours newColumnId (m_taskId payload) newPosition tbl' in
            let needsRebalance :=
              existsb (λ n, Num.ltb (Num.abs (Num.sub n newPosition)) MIN_GAP) neighbours in
            Ok ({| mr_task := updated;
                   mr_conflict := merged_conflict updated analysis;
                   mr_needsRebalance := needsRebalance |}, tbl')
        end
  end.

Definition deleteTask (payload : DeleteTaskPayload) (tbl : Sql.Table)
    : Result (DeleteResult * Sql.Table) :=
  let '(tbl', rows) := Sql.delete_by_id (d_taskId payload) tbl in
  match rows with
  | [] => Ok ({| dr_deleted := false; dr_task := None |}, tbl')
  | r :: _ => Ok ({| dr_deleted := true; dr_task := Some r |}, tbl')
  end.

(** ** In-memory store (db/memoryStore.ts)

    The module-level [tasks] array is the state threaded through the
    operations. *)

Module Mem.

Definition makeTask (newId now : string) (columnId_ : Column) (position_ : number)
    (title_ description_ : string) : Task :=
  mkTask newId title_ description_ columnId_ position_ 1 1 1 1 1 now now.

Definition bump_field (newVersion : Z) (updated : Task) (f : Field) : Task :=
  match f with
  | f_title => with_titleVersion newVersion updated
  | f_description => with_descriptionVersion newVersion updated
  | f_columnId => with_columnVersion newVersion updated
  | f_position => with_positionVersion newVersion updated
  end.

Definition bumpVersion (now : string) (task : Task) (fields : list Field) : Task :=
  let newVersion := version task + 1 in
  let updated := with_updatedAt now (with_version newVersion task) in
  foldl (bump_field newVersion) updated fields.

(** [updated[k] = v] *)
Definition assign (updated : Task) (c : Change) : Task :=
  match c with
  | ch_title v => with_title v updated
  | ch_description v => with_description v updated
  | ch_columnId v => with_columnId v updated
  | ch_position v => with_position v updated
  end.

(** [tasks.findIndex(t => t.id === taskId)]; [None] is [-1]. *)
Definition findIndex (taskId : string) (tasks : list Task) : option nat :=
  fst <$> list_find (λ t, id t = taskId) tasks.

(** [Math.max(...positions)] *)
Definition math_max_step (highest x : number) : number :=
  if Num.is_nan highest then highest
  else if Num.is_nan x then x
  else match highest, x with
       | S754_zero true, S754_zero false => x
       | _, _ => if Num.gtb x highest then x else highest
       end.

Definition math_max (xs : list number) : number :=
  foldl math_max_step (S754_infinity true) xs.

(** [xs.sort(cmp)]: an element goes before the first one it does not
    compare greater than; a NaN from [cmp] counts as 0. *)
Definition sort {A} (cmp : A → A → number) (xs : list A) : list A :=
  foldr (Sql.insert_by (λ a b, negb (Num.gtb (cmp a b) Num.zero))) [] xs.

Definition mem_positionAtEnd (columnId_ : Column) (tasks : list Task) : number :=
  let positions := position <$> filter (λ t, columnId t = columnId_) tasks in
  if (length positions =? 0)%nat then INITIAL_STEP
  else Num.add (math_max positions) INITIAL_STEP.

Definition mem_createTask (newId now : string) (payload : CreateTaskPayload)
    (tasks : list Task) : Result (Task * list Task) :=
  let pos :=
    if Num.gtb (c_position payload) Num.zero then c_position payload
    else mem_positionAtEnd (c_columnId payload) tasks in
  let task := makeTask newId now (c_columnId payload) pos
                (title_or_default (c_title payload)) (c_description payload) in
  Ok (task, tasks ++ [task]).

Definition mem_updateTask (now : string) (payload : UpdateTaskPayload)
    (tasks : list Task) : Result (UpdateResult * list Task) :=
  match findIndex (u_taskId payload) tasks with
  | None => Throw (not_found (u_taskId payload))
  | Some idx =>
      match tasks !! idx with
      | None => Throw "TypeError: current is undefined"
      | Some current =>
          let analysis := analyseConflict current (u_baseVersion payload) (u_changes payload) in
          if fullyRejected analysis then
            Ok ({| ur_task := current;
                   ur_conflict := Some (rejected_conflict current analysis) |}, tasks)
          else
            let changedFields := keys (mergedChanges analysis) in
            let updated := foldl assign (bumpVersion now current changedFields)
                             (mergedChanges analysis) in
            Ok ({| ur_task := updated;
                   ur_conflict := merged_conflict updated analysis |},
                <[idx:=updated]> tasks)
      end
  end.

Definition mem_moveTask (now : string) (payload : MoveTaskPayload)
    (tasks : list Task) : Result (MoveResult * list Task) :=
  match findIndex (m_taskId payload) tasks with
  | None => Throw (not_found (m_taskId payload))
  | Some idx =>
      match tasks !! idx with
      | None => Throw "TypeError: current is undefined"
      | Some current =>
          let changes := [ch_columnId (m_columnId payload); ch_position (m_position payload)] in
          let analysis := analyseConflict current (m_baseVersion payload) changes in
          if fullyRejected analysis then
            Ok ({| mr_task := current;
                   mr_conflict := Some (rejected_conflict current analysis);
                   mr_needsRebalance := false |}, tasks)
          else
            let newColumnId := default (columnId current) (get_columnId (mergedChanges analysis)) in
            let newPosition := default (position current) (get_position (mergedChanges analysis)) in
            let updated := bumpVersion now current [f_columnId; f_position] in
            let updated := with_position newPosition (with_columnId newColumnId updated) in
            let tasks' := <[idx:=updated]> tasks in
            let neighbours :=
              (λ t, Num.abs (Num.sub (position t) newPosition)) <$>
                filter (λ t, columnId t = newColumnId ∧ id t ≠ id updated) tasks' in
            let needsRebalance := existsb (λ d, Num.ltb d MIN_GAP) neighbours in
            Ok ({| mr_task := updated;
                   mr_conflict := merged_conflict updated analysis;
                   mr_needsRebalance := needsRebalance |}, tasks')
      end
  end.

Definition mem_deleteTask (payload : DeleteTaskPayload) (tasks : list Task)
    : Result (DeleteResult * list Task) :=
  match findIndex (d_taskId payload) tasks with
  | None => Ok ({| dr_deleted := false; dr_task := None |}, tasks)
  | Some idx =>
      Ok ({| dr_deleted := true; dr_task := tasks !! idx |}, delete idx tasks)
  end.

(** The loop of [mem_rebalanceColumn] from index [i] on.  When [findIndex]
    gives -1 the assignment [tasks[-1] = ...] leaves the elements alone. *)
Fixpoint mem_rebalance_loop (now : string) (i : nat) (colTasks : list Task)
    (tasks : list Task) (updated : list Task) : list Task * list Task :=
  match colTasks with
  | [] => (updated, tasks)
  | t :: rest =>
      let newPos := Num.mul (Num.add (Num.of_nat i) Num.one) INITIAL_STEP in
      let newTask := with_position newPos (bumpVersion now t [f_position]) in
      let tasks' :=
        match findIndex (id t) tasks with
        | Some idx => <[idx:=newTask]> tasks
        | None => tasks
        end in
      mem_rebalance_loop now (S i) rest tasks' (updated ++ [newTask])
  end.

Definition mem_rebalanceColumn (now : string) (columnId_ : Column)
    (tasks : list Task) : Result (list Task * list Task) :=
  let colTasks :=
    sort (λ a b, Num.sub (position a) (position b))
      (filter (λ t, columnId t = columnId_) tasks) in
  Ok (mem_rebalance_loop now 0 colTasks tasks []).

End Mem.

(** ** Server messages, presence and the broadcaster (websocket/) *)

Record PresenceUser := mkPresence {
  p_clientId : string;
  p_username : string;
  p_color : string;
  p_viewingTask : option string;
  p_editingTask : option string;
  p_connectedAt : string;
}.

#[global] Instance PresenceUser_eq_dec : EqDecision PresenceUser.
Proof. solve_decision. Defined.

Record PresenceUpdatePayload := mkPresenceUpdate {
  pu_clientId : string;
  pu_username : string;
  pu_viewingTask : option string;
  pu_editingTask : option string;
}.

Inductive ServerMessage :=
  | INITIAL_STATE (tasks : list Task) (presence : list PresenceUser)
  | TASK_CREATED (task : Task) (tempId : string)
  | TASK_UPDATED (task : Task)
  | TASK_DELETED (taskId : string)
  | TASK_MOVED (task : Task)
  | CONFLICT_RESOLVED (payload : ConflictResolvedPayload)
  | REBALANCED (col : Column) (tasks : list Task)
  | PRESENCE_UPDATE (users : list PresenceUser)
  | ERROR (code message : string) (taskId : option string).

#[global] Instance ServerMessage_eq_dec : EqDecision ServerMessage.
Proof. solve_decision. Defined.

Inductive ReadyState := CONNECTING | OPEN | CLOSING | CLOSED.

#[global] Instance ReadyState_eq_dec : EqDecision ReadyState.
Proof. solve_decision. Defined.

(** The [connections] map, in insertion order: client id and the state of
    its socket. *)
Abbreviation Connections := (list (string * ReadyState)).

(** What [ws.send] has put on the wire: recipient and message, oldest first. *)
Abbreviation Outbox := (list (string * ServerMessage)).

Definition getConnection (clientId : string) (conns : Connections) : option ReadyState :=
  snd <$> (snd <$> list_find (λ kv, kv.1 = clientId) conns).

Definition sendTo (clientId : string) (message : ServerMessage) (conns : Connections)
    : Outbox :=
  match getConnection clientId conns with
  | Some OPEN => [(clientId, message)]
  | _ => []
  end.

Fixpoint broadcast (message : ServerMessage) (skipClientId : option string)
    (conns : Connections) : Outbox :=
  match conns with
  | [] => []
  | (clientId, ws) :: rest =>
      if decide (Some clientId = skipClientId) then broadcast message skipClientId rest
      else if decide (ws = OPEN) then (clientId, message) :: broadcast message skipClientId rest
      else broadcast message skipClientId rest
  end.

Definition broadcastAll (message : ServerMessage) (conns : Connections) : Outbox :=
  broadcast message None conns.

(** presenceManager: [updateUser] and [getAllUsers] on the presence map. *)
Fixpoint updateUser (clientId : string) (update : PresenceUpdatePayload)
    (presenceMap : list PresenceUser) : list PresenceUser :=
  match presenceMap with
  | [] => []
  | user :: rest =>
      if decide (p_clientId user = clientId) then
        mkPresence (p_clientId user) (pu_username update) (p_color user)
          (pu_viewingTask update) (pu_editingTask update) (p_connectedAt user) :: rest
      else user :: updateUser clientId update rest
  end.

(** ** Message router (websocket/messageRouter.ts) *)

(** [SELECT * FROM tasks ORDER BY column_id, position] *)
Definition getAllTasks (tbl : Sql.Table) : list Task :=
  foldr (Sql.insert_by (λ a b,
           match String.compare (column_name (columnId a)) (column_name (columnId b)) with
           | Lt => true
           | Eq => Sql.float8_le (position a) (position b)
           | Gt => false
           end)) [] tbl.

Inductive QueuedOperation :=
  | q_CREATE_TASK (payload : CreateTaskPayload)
  | q_UPDATE_TASK (payload : UpdateTaskPayload)
  | q_DELETE_TASK (payload : DeleteTaskPayload)
  | q_MOVE_TASK (payload : MoveTaskPayload).

(** A received frame after [JSON.parse]. *)
Inductive ClientMessage :=
  | SYNC_REQUEST
  | CREATE_TASK (payload : CreateTaskPayload)
  | UPDATE_TASK (payload : UpdateTaskPayload)
  | MOVE_TASK (payload : MoveTaskPayload)
  | DELETE_TASK (payload : DeleteTaskPayload)
  | PRESENCE_UPDATE_MSG (payload : PresenceUpdatePayload)
  | REPLAY_QUEUE (operations : list QueuedOperation)
  | UNKNOWN_TYPE (type : string)
  | INVALID_JSON.

(** What the database hands out: the uuid and the time of the n-th request. *)
Record Env := mkEnv {
  uuid : nat → string;
  clock : nat → string;
}.

Record World := mkWorld {
  db : Sql.Table;
  connections : Connections;
  presence : list PresenceUser;
  outbox : Outbox;
  tick : nat;
}.

Definition emit (out : Outbox) (w : World) : World :=
  mkWorld (db w) (connections w) (presence w) (outbox w ++ out) (tick w).

Definition set_db (tbl : Sql.Table) (w : World) : World :=
  mkWorld tbl (connections w) (presence w) (outbox w) (S (tick w)).

(** A handler returns the world it leaves and the message of the error it
    threw, if it threw. *)
Definition Handler : Type := World → World * option string.

Definition handleSyncRequest (clientId : string) : Handler := λ w,
  (emit (sendTo clientId (INITIAL_STATE (getAllTasks (db w)) (presence w)) (connections w)) w,
   None).

Definition handleCreateTask (env : Env) (clientId : string) (payload : CreateTaskPayload)
    : Handler := λ w,
  match createTask (uuid env (tick w)) (clock env (tick w)) payload (db w) with
  | Throw e => (w, Some e)
  | Ok (task, tbl) =>
      let w := set_db tbl w in
      (emit (broadcastAll (TASK_CREATED task (c_tempId payload)) (connections w)) w, None)
  end.

Definition handleUpdateTask (env : Env) (clientId : string) (payload : UpdateTaskPayload)
    : Handler := λ w,
  match updateTask (clock env (tick w)) payload (db w) with
  | Throw e => (w, Some e)
  | Ok (res, tbl) =>
      let w := set_db tbl w in
      match ur_conflict res with
      | Some conflict =>
          match cr_resolution conflict with
          | REJECTED =>
              let w := emit (sendTo clientId (CONFLICT_RESOLVED conflict) (connections w)) w in
              (emit (broadcast (TASK_UPDATED (ur_task res)) None (connections w)) w, None)
          | MERGED =>
              let w := emit (sendTo clientId (CONFLICT_RESOLVED conflict) (connections w)) w in
              (emit (broadcastAll (TASK_UPDATED (ur_task res)) (connections w)) w, None)
          end
      | None => (emit (broadcastAll (TASK_UPDATED (ur_task res)) (connections w)) w, None)
      end
  end.

Definition handleMoveTask (env : Env) (clientId : string) (payload : MoveTaskPayload)
    : Handler := λ w,
  match moveTask (clock env (tick w)) payload (db w) with
  | Throw e => (w, Some e)
  | Ok (res, tbl) =>
      let w := set_db tbl w in
      let rejected :=
        match mr_conflict res with
        | Some conflict => bool_decide (cr_resolution conflict = REJECTED)
        | None => false
        end in
      let w :=
        match mr_conflict res with
        | Some conflict => emit (sendTo clientId (CONFLICT_RESOLVED conflict) (connections w)) w
        | None => w
        end in
      if rejected then
        (emit (broadcast (TASK_MOVED (mr_task res)) None (connections w)) w, None)
      else
        let w := emit (broadcastAll (TASK_MOVED (mr_task res)) (connections w)) w in
        if mr_needsRebalance res then
          match rebalanceColumn (clock env (tick w)) (columnId (mr_task res)) (db w) with
          | Throw e => (w, Some e)
          | Ok (updatedTasks, tbl) =>
              let w := set_db tbl w in
              (emit (broadcastAll (REBALANCED (columnId (mr_task res)) updatedTasks)
                       (connections w)) w, None)
          end
        else (w, None)
  end.

Definition handleDeleteTask (clientId : string) (payload : DeleteTaskPayload)
    : Handler := λ w,
  match deleteTask payload (db w) with
  | Throw e => (w, Some e)
  | Ok (res, tbl) =>
      let w := set_db tbl w in
      if negb (dr_deleted res) then
        (emit (sendTo clientId
                 (ERROR "NOT_FOUND" (not_found (d_taskId payload)) (Some (d_taskId payload)))
                 (connections w)) w, None)
      else (emit (broadcastAll (TASK_DELETED (d_taskId payload)) (connections w)) w, None)
  end.

Definition handlePresenceUpdate (clientId : string) (payload : PresenceUpdatePayload)
    : Handler := λ w,
  let w := mkWorld (db w) (connections w) (updateUser clientId payload (presence w))
             (outbox w) (tick w) in
  (emit (broadcastAll (PRESENCE_UPDATE (presence w)) (connections w)) w, None).

(** The [try { switch ... } catch] of [handleMessage] around one handler. *)
Definition guarded (clientId : string) (h : Handler) (w : World) : World :=
  match h w with
  | (w', None) => w'
  | (w', Some message) =>
      emit (sendTo clientId (ERROR "INTERNAL_ERROR" message None) (connections w')) w'
  end.

Definition handleQueued (env : Env) (clientId : string) (op : QueuedOperation)
    (w : World) : World :=
  match op with
  | q_CREATE_TASK p => guarded clientId (handleCreateTask env clientId p) w
  | q_UPDATE_TASK p => guarded clientId (handleUpdateTask env clientId p) w
  | q_DELETE_TASK p => guarded clientId (handleDeleteTask clientId p) w
  | q_MOVE_TASK p => guarded clientId (handleMoveTask env clientId p) w
  end.

(** [handleReplayQueue]: each queued operation goes through [handleMessage]
    again, in order. *)
Definition handleReplayQueue (env : Env) (clientId : string)
    (operations : list QueuedOperation) : Handler := λ w,
  (foldl (λ w op, handleQueued env clientId op w) w operations, None).

Definition handleMessage (env : Env) (clientId : string) (message : ClientMessage)
    (w : World) : World :=
  match message with
  | INVALID_JSON =>
      emit (sendTo clientId (ERROR "INVALID_JSON" "Message must be valid JSON" None)
              (connections w)) w
  | SYNC_REQUEST => guarded clientId (handleSyncRequest clientId) w
  | CREATE_TASK p => guarded clientId (handleCreateTask env clientId p) w
  | UPDATE_TASK p => guarded clientId (handleUpdateTask env clientId p) w
  | MOVE_TASK p => guarded clientId (handleMoveTask env clientId p) w
  | DELETE_TASK p => guarded clientId (handleDeleteTask clientId p) w
  | PRESENCE_UPDATE_MSG p => guarded clientId (handlePresenceUpdate clientId p) w
  | REPLAY_QUEUE ops => guarded clientId (handleReplayQueue env clientId ops) w
  | UNKNOWN_TYPE type =>
      guarded clientId
        (λ w, (emit (sendTo clientId
                       (ERROR "UNKNOWN_MESSAGE_TYPE" ("Unknown message type: " +:+ type) None)
                       (connections w)) w, None)) w
  end.

(** ** Vocabulary of the statements and sample data *)

(** A field of the change map is merged when its stamp is at most the base
    version. *)
Definition mergeable (current : Task) (baseVersion : Z) (c : Change) : Prop :=
  FIELD_VERSION_MAP (change_field c) current ≤ baseVersion.

#[global] Instance mergeable_dec current baseVersion c :
  Decision (mergeable current baseVersion c).
Proof. unfold mergeable. apply _. Defined.

Definition names (o : list Change) : list string :=
  (λ c, field_name (change_field c)) <$> o.


(** The changes a [MOVE_TASK] payload stands for. *)
Definition move_changes (payload : MoveTaskPayload) : TaskMutation :=
  [ch_columnId (m_columnId payload); ch_position (m_position payload)].

Module Sample.

Definition T : Task := mkTask "T" "Task" "" todo INITIAL_STEP 1 1 1 1 1 "t0" "t0".

Definition env : Env :=
  mkEnv (λ n, match n with O => "u0" | 1 => "u1" | 2 => "u2" | _ => "u3" end%nat)
        (λ n, match n with O => "t1" | 1 => "t2" | 2 => "t3" | _ => "t4" end%nat).

Definition w0 : World :=
  mkWorld [T] [("A", OPEN); ("B", OPEN); ("C", CLOSED)] [] [] 0.

Definition moveA : MoveTaskPayload := mkMove "A" "T" 1 inprogress INITIAL_STEP.
Definition moveB : MoveTaskPayload := mkMove "B" "T" 1 done_ INITIAL_STEP.
Definition editA : UpdateTaskPayload := mkUpdate "A" "T" 1 [ch_title "A"].
Definition editB' : UpdateTaskPayload := mkUpdate "B" "T" 1 [ch_title "B"].

(** The world after user A's move, and after user A's edit. *)
Definition w_moved : World := handleMessage env "A" (MOVE_TASK moveA) w0.
Definition w_edited : World := handleMessage env "A" (UPDATE_TASK editA) w0.

(** The row after user A's move, and after user A's edit. *)
Definition T_moved : Task :=
  mkTask "T" "Task" "" inprogress INITIAL_STEP 2 1 1 2 2 "t0" "t1".
Definition T_edited : Task :=
  mkTask "T" "A" "" todo INITIAL_STEP 2 2 1 1 1 "t0" "t1".

End Sample.

Module PartialMove.

(** The sample row after [rebalanceColumn]: only the position stamp moved. *)
Definition T_rebalanced : Task :=
  mkTask "T" "Task" "" todo INITIAL_STEP 2 1 1 1 2 "t0" "t1".

(** A move built on version 1, before the rebalance. *)
Definition move : MoveTaskPayload := mkMove "B" "T" 1 done_ (Num.of_Z 32768).

Definition T_after : Task :=
  mkTask "T" "Task" "" done_ INITIAL_STEP 3 1 1 3 3 "t0" "t2".

End PartialMove.

(** The row that the [i]-th update of [rebalanceColumn] writes. *)
Definition rebalance_position (i : nat) : number :=
  Num.mul (Num.add (Num.of_nat i) Num.one) INITIAL_STEP.

Definition rebalanced (now : string) (i : nat) (r : Task) : Task :=
  with_updatedAt now
    (with_positionVersion (version r + 1)
       (with_version (version r + 1) (with_position (rebalance_position i) r))).

(** The table after the rows [rows] have been rewritten from index [i] on. *)
Definition rebalanced_table (now : string) (i : nat) (rows : list Task)
    (tbl : Sql.Table) : Sql.Table :=
  (λ r, match list_find (λ x, id x = id r) rows with
        | Some (k, _) => rebalanced now (i + k) r
        | None => r
        end) <$> tbl.

(** [k * 2^e] is a normal double: [k] has at most 53 bits and the exponent
    is in range. *)
Definition normal (k : positive) (e : Z) : Prop :=
  Zpos (digits2_pos k) ≤ 53
  ∧ -1074 ≤ Zpos (digits2_pos k) + e - 53
  ∧ Zpos (digits2_pos k) + e ≤ 1024.


(** A double that is [1.3] and one that is [1.6], to the last bit. *)
Definition d1_3 : number := S754_finite false 5854679515581645 (-52).
Definition d1_6 : number := S754_finite false 7205759403792794 (-52).

(** Scenario 5 of the specification: three tasks at 1.0, 1.3 and 1.6. *)
Module Scenario5.

Definition T1 : Task := mkTask "T1" "T1" "" todo Num.one 1 1 1 1 1 "t0" "t0".
Definition T2 : Task := mkTask "T2" "T2" "" todo d1_3 1 1 1 1 1 "t0" "t0".
Definition T3 : Task := mkTask "T3" "T3" "" todo d1_6 1 1 1 1 1 "t0" "t0".
Definition tbl : list Task := [T3; T1; T2].

End Scenario5.

(** ** Committed operations and reachable states *)

Inductive Op :=
  | op_create (newId now : string) (payload : CreateTaskPayload)
  | op_update (now : string) (payload : UpdateTaskPayload)
  | op_move (now : string) (payload : MoveTaskPayload)
  | op_delete (payload : DeleteTaskPayload)
  | op_rebalance (now : string) (col : Column).

(** The table a transaction leaves: the new one, or the old one when it
    threw. *)
Definition committed {R} (res : Result (R * list Task)) (tbl : list Task) : list Task :=
  match res with
  | Ok (_, tbl') => tbl'
  | Throw _ => tbl
  end.

Definition run_op (op : Op) (tbl : list Task) : list Task :=
  match op with
  | op_create newId now p => committed (createTask newId now p tbl) tbl
  | op_update now p => committed (updateTask now p tbl) tbl
  | op_move now p => committed (moveTask now p tbl) tbl
  | op_delete p => committed (deleteTask p tbl) tbl
  | op_rebalance now col => committed (rebalanceColumn now col tbl) tbl
  end.

(** The database hands out ids that are not in use. *)
Definition fresh_id (op : Op) (tbl : list Task) : Prop :=
  match op with
  | op_create newId _ _ => newId ∉ id <$> tbl
  | _ => True
  end.

(** States reachable from the empty table. *)
Inductive reachable : list Task → Prop :=
  | reachable_empty : reachable []
  | reachable_step tbl op :
      reachable tbl → fresh_id op tbl → reachable (run_op op tbl).





(** Two clients create a task at the same position of one column. *)
Module Collision.

Definition createA : CreateTaskPayload := mkCreate "A" "tmp1" "First" "" todo INITIAL_STEP.
Definition createB : CreateTaskPayload := mkCreate "B" "tmp2" "Second" "" todo INITIAL_STEP.
Definition tbl1 : list Task := run_op (op_create "u0" "t1" createA) [].
Definition tbl2 : list Task := run_op (op_create "u1" "t2" createB) tbl1.

End Collision.

(** A double with sign [s] that is neither zero nor NaN. *)
Definition signed (s : bool) (x : number) : Prop :=
  match x with
  | S754_finite s' _ _ | S754_infinity s' => s' = s
  | _ => False
  end.

(** A well-formed double that is not NaN. *)
Definition ok (x : number) : Prop := Num.valid x = true ∧ Num.is_nan x = false.

(** ** The SQL-backed service and the in-memory store, side by side *)

(** What an operation hands back to the router. *)
Inductive Outcome :=
  | out_create (task : Task)
  | out_update (res : UpdateResult)
  | out_move (res : MoveResult)
  | out_delete (res : DeleteResult)
  | out_rebalance (tasks : list Task)
  | out_throw (message : string).

Definition outcome {R} (wrap : R → Outcome) (res : Result (R * list Task))
    (s : list Task) : Outcome * list Task :=
  match res with
  | Ok (r, s') => (wrap r, s')
  | Throw message => (out_throw message, s)
  end.

Definition sql_step (op : Op) (tbl : list Task) : Outcome * list Task :=
  match op with
  | op_create newId now p => outcome out_create (createTask newId now p tbl) tbl
  | op_update now p => outcome out_update (updateTask now p tbl) tbl
  | op_move now p => outcome out_move (moveTask now p tbl) tbl
  | op_delete p => outcome out_delete (deleteTask p tbl) tbl
  | op_rebalance now col => outcome out_rebalance (rebalanceColumn now col tbl) tbl
  end.

Definition mem_step (op : Op) (tasks : list Task) : Outcome * list Task :=
  match op with
  | op_create newId now p => outcome out_create (Mem.mem_createTask newId now p tasks) tasks
  | op_update now p => outcome out_update (Mem.mem_updateTask now p tasks) tasks
  | op_move now p => outcome out_move (Mem.mem_moveTask now p tasks) tasks
  | op_delete p => outcome out_delete (Mem.mem_deleteTask p tasks) tasks
  | op_rebalance now col => outcome out_rebalance (Mem.mem_rebalanceColumn now col tasks) tasks
  end.

(** A sequence of operations: the outcomes, in order, and the final state. *)
Fixpoint run (step : Op → list Task → Outcome * list Task) (ops : list Op)
    (s : list Task) : list Outcome * list Task :=
  match ops with
  | [] => ([], s)
  | op :: rest =>
      let '(o, s') := step op s in
      let '(os, s'') := run step rest s' in
      (o :: os, s'')
  end.




(** Doubles that are equal, or both a zero. *)
Definition zsim (a b : number) : Prop :=
  a = b ∨ ∃ s s', a = S754_zero s ∧ b = S754_zero s'.

(** A session on the three tasks of scenario 5: a create at the end of the
    column, a move onto a neighbour's position, a rebalance, an edit, a
    delete, and an edit of the deleted task. *)
Module Session.

Definition ops : list Op :=
  [ op_create "u3" "t1" (mkCreate "A" "tmp1" "T4" "" todo Num.zero);
    op_move "t2" (mkMove "B" "T2" 1 todo d1_6);
    op_rebalance "t3" todo;
    op_update "t4" (mkUpdate "A" "T1" 1 [ch_title "First"; ch_description "top"]);
    op_delete (mkDelete "A" "T3" 2);
    op_update "t5" (mkUpdate "B" "T3" 2 [ch_title "gone"]) ].

End Session.

(** A move to the position NaN, then a rebalance of the column. *)
Module NanMove.

Definition ops : list Op :=
  [ op_move "t1" (mkMove "A" "T3" 1 todo S754_nan);
    op_rebalance "t2" todo ].

End NanMove.

(** ** Reads of the task service (services/taskService.ts) *)

(** [SELECT * FROM tasks WHERE id = $1], then
    [rows.length ? rowToTask(rows[0]) : null]. *)
Definition getTaskById (taskId : string) (tbl : Sql.Table) : option Task :=
  head (Sql.select_by_id taskId tbl).


(** ** Reads of the in-memory store (db/memoryStore.ts) *)



(** ** Vocabulary of the further properties *)

(** The stamps of a row lie between the default 1 and the row's version. *)
Definition stamps_ok (t : Task) : Prop :=
  ∀ f, 1 ≤ FIELD_VERSION_MAP f t ≤ version t.

(** A double that is a zero or a finite number. *)
Definition finite (x : number) : Prop :=
  match x with
  | S754_zero _ | S754_finite _ _ _ => True
  | _ => False
  end.

(** The order of [ORDER BY column_id, position]. *)
Definition board_le (a b : Task) : bool :=
  match String.compare (column_name (columnId a)) (column_name (columnId b)) with
  | Lt => true
  | Eq => Sql.float8_le (position a) (position b)
  | Gt => false
  end.

(** The place of a column in the alphabetical order of the column names. *)
Definition column_rank (c : Column) : Z :=
  match c with
  | done_ => 0
  | inprogress => 1
  | todo => 2
  end.

(** A task comes no later than another on the board: an earlier column, or
    the same column and a position that is not greater. *)
Definition board_order (a b : Task) : Prop :=
  column_rank (columnId a) < column_rank (columnId b)
  ∨ (columnId a = columnId b ∧ Sql.float8_le (position a) (position b) = true).

(** ** Connections and presence over time (websocket/broadcaster.ts,
       websocket/presenceManager.ts, websocket/wsServer.ts) *)

(** [connections.set(clientId, ws)]: a known key keeps its place in the
    iteration order and takes the new socket. *)
Definition registerConnection (clientId : string) (ws : ReadyState)
    (conns : Connections) : Connections :=
  match list_find (λ kv, kv.1 = clientId) conns with
  | Some (i, _) => <[i:=(clientId, ws)]> conns
  | None => conns ++ [(clientId, ws)]
  end.

(** [connections.delete(clientId)] *)
Definition unregisterConnection (clientId : string) (conns : Connections) : Connections :=
  filter (λ kv, kv.1 ≠ clientId) conns.

Definition connectionCount (conns : Connections) : nat := length conns.

Definition COLORS : list string :=
  ["#F87171"; "#FB923C"; "#FBBF24"; "#A3E635";
   "#34D399"; "#22D3EE"; "#818CF8"; "#E879F9"].

(** [nextColor]: the colour and the advanced [colorIndex]; an index outside
    the array would give [undefined]. *)
Definition nextColor (colorIndex : nat) : option string * nat :=
  (COLORS !! (colorIndex mod length COLORS)%nat, S colorIndex).

(** [presenceMap.set(clientId, user)] *)
Definition presence_set (user : PresenceUser) (presenceMap : list PresenceUser)
    : list PresenceUser :=
  match list_find (λ u, p_clientId u = p_clientId user) presenceMap with
  | Some (i, _) => <[i:=user]> presenceMap
  | None => presenceMap ++ [user]
  end.

(** [addUser]: the user, the map and the colour index it leaves. *)
Definition addUser (clientId username now : string)
    (presenceMap : list PresenceUser) (colorIndex : nat)
    : PresenceUser * list PresenceUser * nat :=
  let '(color, colorIndex') := nextColor colorIndex in
  let user := mkPresence clientId username (default "" color) None None now in
  (user, presence_set user presenceMap, colorIndex').

Definition removeUser (clientId : string) (presenceMap : list PresenceUser)
    : list PresenceUser :=
  filter (λ u, p_clientId u ≠ clientId) presenceMap.

Definition hasUser (clientId : string) (presenceMap : list PresenceUser) : bool :=
  bool_decide (clientId ∈ p_clientId <$> presenceMap).

(** The server: the world of the router and the colour counter of the
    presence manager. *)
Record Server := mkServer {
  world : World;
  colorIndex : nat;
}.

(** The ['connection'] handler of [attachWebSocketServer], from the parsed
    [clientId] and [username] on; the new socket is open. *)
Definition onConnection (clientId username now : string) (s : Server) : Server :=
  let w := world s in
  let conns := registerConnection clientId OPEN (connections w) in
  let '(_, pres, colorIndex') := addUser clientId username now (presence w) (colorIndex s) in
  let w := mkWorld (db w) conns pres (outbox w) (tick w) in
  let w := emit (sendTo clientId (INITIAL_STATE (getAllTasks (db w)) (presence w))
                   (connections w)) w in
  let w := emit (broadcast (PRESENCE_UPDATE (presence w)) (Some clientId) (connections w)) w in
  mkServer w colorIndex'.

(** The ['close'] handler of a socket of [clientId]. *)
Definition onClose (clientId : string) (s : Server) : Server :=
  let w := world s in
  let w := mkWorld (db w) (unregisterConnection clientId (connections w))
             (removeUser clientId (presence w)) (outbox w) (tick w) in
  mkServer (emit (broadcastAll (PRESENCE_UPDATE (presence w)) (connections w)) w)
    (colorIndex s).

(** The ['message'] handler: the frame goes to the router. *)
Definition onMessage (env : Env) (clientId : string) (message : ClientMessage)
    (s : Server) : Server :=
  mkServer (handleMessage env clientId message (world s)) (colorIndex s).


(** A message was put on the wire for a client whose socket is registered
    and open. *)
Definition to_open (conns : Connections) (m : string * ServerMessage) : Prop :=
  (m.1, OPEN) ∈ conns.

(** The world [w'] continues [w]: the connections are the same, and the
    outbox has grown by messages for registered clients with open sockets. *)
Definition continues (w w' : World) : Prop :=
  connections w' = connections w
  ∧ ∃ out, outbox w' = outbox w ++ out ∧ Forall (to_open (connections w)) out.

(** ** Client-side fractional indexing (the client's ordering helpers) *)

Module Client.

Definition positionAtEnd (positions : list number) : number :=
  if (length positions =? 0)%nat then INITIAL_STEP
  else Num.add (Mem.math_max positions) INITIAL_STEP.

Definition positionBetween (beforePos afterPos : option number) : number :=
  match beforePos, afterPos with
  | None, None => INITIAL_STEP
  | None, Some afterPos => Num.div afterPos Num.two
  | Some beforePos, None => Num.add beforePos INITIAL_STEP
  | Some beforePos, Some afterPos =>
      Num.add beforePos (Num.div (Num.sub afterPos beforePos) Num.two)
  end.

(** [sortedPositions[i] ?? null] for an integer [i]. *)
Definition at_index (sortedPositions : list number) (i : Z) : option number :=
  if i <? 0 then None else sortedPositions !! Z.to_nat i.

Definition positionForIndex (sortedPositions : list number) (targetIndex : Z) : number :=
  positionBetween (at_index sortedPositions (targetIndex - 1))
    (at_index sortedPositions targetIndex).

End Client.

(** * Properties *)

(** ** Objects as entry lists *)




Lemma obj_get_None f o : f ∉ keys o → obj_get f o = None.
Proof.
  intros Hf. unfold obj_get.
  destruct (list_find _ o) as [[i c]|] eqn:Hfind; [|done].
  apply list_find_Some in Hfind as (Hi & Hkey & _).
  exfalso. apply Hf. rewrite <- Hkey. apply list_elem_of_fmap.
  exists c. split; [done|]. by eapply list_elem_of_lookup_2.
Qed.


(** ** Conflict resolver *)

Lemma analyse_loop_names current baseVersion changes mc mf rf :
  (analyse_loop current baseVersion changes (mc, mf, rf)).1.2 =
    mf ++ names (filter (mergeable current baseVersion) changes)
  ∧ (analyse_loop current baseVersion changes (mc, mf, rf)).2 =
    rf ++ names (filter (λ c, ¬ mergeable current baseVersion c) changes).
Proof.
  revert mc mf rf. induction changes as [|c rest IH]; intros mc mf rf.
  - simpl. by rewrite !app_nil_r.
  - cbn [analyse_loop]. rewrite !filter_cons.
    destruct (Z.leb_spec (FIELD_VERSION_MAP (change_field c) current) baseVersion) as [Hle|Hgt].
    + rewrite (decide_True (P := mergeable current baseVersion c)) by exact Hle.
      rewrite (decide_False (P := ¬ mergeable current baseVersion c))
        by (intros Hn; apply Hn, Hle).
      destruct (IH (obj_set c mc) (mf ++ [field_name (change_field c)]) rf) as [-> ->].
      unfold names. by rewrite fmap_cons, <- !app_assoc.
    + rewrite (decide_False (P := mergeable current baseVersion c))
        by (unfold mergeable; lia).
      rewrite (decide_True (P := ¬ mergeable current baseVersion c))
        by (unfold mergeable; lia).
      destruct (IH mc mf (rf ++ [field_name (change_field c)])) as [-> ->].
      unfold names. by rewrite fmap_cons, <- !app_assoc.
Qed.

Lemma analyseConflict_names current baseVersion changes :
  let a := analyseConflict current baseVersion changes in
  mergedFields a = names (filter (mergeable current baseVersion) changes)
  ∧ rejectedFields a = names (filter (λ c, ¬ mergeable current baseVersion c) changes).
Proof.
  unfold analyseConflict.
  pose proof (analyse_loop_names current baseVersion changes [] [] []) as [H1 H2].
  destruct (analyse_loop _ _ _ _) as [[mc mf] rf]. simpl in *. done.
Qed.



Lemma analyseConflict_flags current baseVersion changes :
  let a := analyseConflict current baseVersion changes in
  hasConflict a = bool_decide (rejectedFields a ≠ [])
  ∧ fullyRejected a = bool_decide (mergedFields a = [] ∧ rejectedFields a ≠ []).
Proof.
  unfold analyseConflict.
  destruct (analyse_loop _ _ _ _) as [[mc mf] rf]. simpl.
  destruct mf, rf; simpl; split; done.
Qed.




(** ** Binary64 arithmetic: exact operations *)

Lemma fexp_eq e : Num.fexp e = Z.max (e - 53) (-1074).
Proof. reflexivity. Qed.

Lemma digits2_pos_size p : digits2_pos p = Pos.size p.
Proof. induction p; simpl; congruence. Qed.

Lemma digits2_pos_log2 p : Zpos (digits2_pos p) = Z.log2 (Zpos p) + 1.
Proof.
  rewrite digits2_pos_size. destruct p; simpl; lia.
Qed.

Lemma pshl_Z m n : Zpos (Num.pshl m n) = Zpos m * 2 ^ Z.of_nat n.
Proof.
  unfold Num.pshl. induction n as [|n IH].
  - simpl. lia.
  - rewrite Nat2Z.inj_succ, Z.pow_succ_r by lia. simpl Nat.iter.
    rewrite Pos2Z.inj_xO, IH. lia.
Qed.

Lemma pshl_digits m n :
  Zpos (digits2_pos (Num.pshl m n)) = Zpos (digits2_pos m) + Z.of_nat n.
Proof.
  unfold Num.pshl. induction n as [|n IH].
  - simpl. lia.
  - simpl Nat.iter. simpl digits2_pos. rewrite Pos2Z.inj_succ, IH. lia.
Qed.


Lemma Pos_iter_pshl m p : Pos.iter xO m p = Num.pshl m (Pos.to_nat p).
Proof.
  unfold Num.pshl. rewrite Pos2Nat.inj_iter. generalize (Pos.to_nat p) as n.
  induction n as [|n IH]; simpl; congruence.
Qed.

Lemma iter_pos_nat {A} (f : A → A) p x :
  SpecFloat.iter_pos f p x = Nat.iter (Pos.to_nat p) f x.
Proof.
  revert x. induction p as [p IH|p IH|]; intros x; simpl SpecFloat.iter_pos.
  - rewrite !IH, <- Nat.iter_add, Pos2Nat.inj_xI.
    replace (S (2 * Pos.to_nat p))%nat with (S (Pos.to_nat p + Pos.to_nat p))%nat by lia.
    by rewrite Nat.iter_succ_r.
  - rewrite !IH, <- Nat.iter_add, Pos2Nat.inj_xO. f_equal. lia.
  - reflexivity.
Qed.

(** [shl_align] as a shift by a natural number. *)
Lemma shl_align_pshl m e (n : nat) :
  shl_align m e (e - Z.of_nat n) = (Num.pshl m n, e - Z.of_nat n).
Proof.
  unfold shl_align. destruct n as [|n].
  - replace (e - Z.of_nat 0 - e) with 0 by lia. simpl. f_equal. lia.
  - change (Z.of_nat (S n)) with (Zpos (Pos.of_succ_nat n)).
    replace (e - Zpos (Pos.of_succ_nat n) - e) with (Zneg (Pos.of_succ_nat n)) by lia.
    by rewrite Pos_iter_pshl, SuccNat2Pos.id_succ.
Qed.

Lemma shl_align_ge m e e' : e ≤ e' → shl_align m e e' = (m, e).
Proof.
  intros Hle. unfold shl_align. destruct (e' - e) eqn:Hd; try reflexivity. lia.
Qed.

(** Shifting right by [n] bits that are all zero loses nothing. *)
Lemma iter_shr_1_exact n M :
  Nat.iter n shr_1 (Build_shr_record (Zpos (Num.pshl M n)) false false) =
  Build_shr_record (Zpos M) false false.
Proof.
  revert M. induction n as [|n IH]; intros M; [reflexivity|].
  simpl Nat.iter. change (Num.pshl M (S n)) with (xO (Num.pshl M n)).
  replace (xO (Num.pshl M n)) with (Num.pshl (xO M) n).
  - rewrite IH. reflexivity.
  - unfold Num.pshl. clear. induction n; simpl; congruence.
Qed.

Lemma shr_exact M (n : nat) e :
  shr (Build_shr_record (Zpos (Num.pshl M n)) false false) e (Z.of_nat n) =
  (Build_shr_record (Zpos M) false false, e + Z.of_nat n).
Proof.
  destruct n as [|n]; [unfold shr; simpl; f_equal; lia|].
  change (Z.of_nat (S n)) with (Zpos (Pos.of_succ_nat n)). unfold shr.
  rewrite iter_pos_nat, SuccNat2Pos.id_succ, iter_shr_1_exact. reflexivity.
Qed.

(** Rounding an integer mantissa whose [n] low bits are zero and whose
    remaining bits fit the format. *)
Lemma binary_round_aux_exact s M (n : nat) e :
  Num.fexp (Zpos (digits2_pos M) + Z.of_nat n + e) = e + Z.of_nat n →
  e + Z.of_nat n ≤ 971 →
  binary_round_aux Num.prec Num.emax s (Zpos (Num.pshl M n)) e loc_Exact =
  S754_finite s M (e + Z.of_nat n).
Proof.
  intros Hfexp Hmax. unfold binary_round_aux, shr_fexp.
  cbn [shr_record_of_loc Zdigits2]. rewrite pshl_digits.
  change (SpecFloat.fexp Num.prec Num.emax) with Num.fexp.
  rewrite Hfexp. replace (e + Z.of_nat n - e) with (Z.of_nat n) by lia.
  rewrite shr_exact. cbn [shr_m loc_of_shr_record round_nearest_even shr_record_of_loc Zdigits2].
  replace (Zpos (digits2_pos M) + (e + Z.of_nat n))
    with (Zpos (digits2_pos M) + Z.of_nat n + e) by lia.
  rewrite Hfexp, Z.sub_diag. cbn [shr shr_m].
  destruct (Z.leb_spec (e + Z.of_nat n) (Num.emax - Num.prec)) as [_|Hgt]; [done|].
  unfold Num.emax, Num.prec in Hgt. lia.
Qed.

(** Rounding a mantissa that has room to its left: it is shifted left. *)
Lemma binary_round_shl s m (n : nat) e :
  Num.fexp (Zpos (digits2_pos m) + e) = e - Z.of_nat n →
  e - Z.of_nat n ≤ 971 →
  binary_round Num.prec Num.emax s m e = S754_finite s (Num.pshl m n) (e - Z.of_nat n).
Proof.
  intros Hfexp Hmax. unfold binary_round.
  change (SpecFloat.fexp Num.prec Num.emax) with Num.fexp.
  rewrite Hfexp, shl_align_pshl.
  pose proof (binary_round_aux_exact s (Num.pshl m n) 0 (e - Z.of_nat n)) as Haux.
  simpl Z.of_nat in Haux. rewrite !Z.add_0_r in Haux. change (Num.pshl (Num.pshl m n) 0) with (Num.pshl m n) in Haux.
  apply Haux; [|done]. rewrite pshl_digits.
  replace (Zpos (digits2_pos m) + Z.of_nat n + (e - Z.of_nat n))
    with (Zpos (digits2_pos m) + e) by lia. done.
Qed.


(** ** Order of doubles and of [float8] *)

Lemma SFcompare_antisym x y : SFcompare y x = CompOpp <$> SFcompare x y.
Proof.
  destruct x as [sx|sx| |sx mx ex], y as [sy|sy| |sy my ey]; simpl;
    repeat match goal with b : bool |- _ => destruct b end; try reflexivity;
    rewrite (Z.compare_antisym ex ey); destruct (ex ?= ey); simpl; try reflexivity;
    rewrite (Pos.compare_cont_antisym mx my Eq); simpl; reflexivity.
Qed.

Lemma SFcompare_None x y :
  SFcompare x y = None → Num.is_nan x = true ∨ Num.is_nan y = true.
Proof.
  destruct x, y; simpl; auto; intros Hc;
    repeat match goal with b : bool |- _ => destruct b end; discriminate Hc.
Qed.

Lemma float8_le_total x y : Sql.float8_le x y = true ∨ Sql.float8_le y x = true.
Proof.
  unfold Sql.float8_le, Num.leb, SFleb. rewrite (SFcompare_antisym x y).
  destruct (SFcompare x y) as [[]|] eqn:Hc; simpl;
    destruct (Num.is_nan x) eqn:Hx, (Num.is_nan y) eqn:Hy; auto.
  apply SFcompare_None in Hc as [Hc|Hc]; congruence.
Qed.

(** ** Doubles with an exact dyadic value *)







(** Bounds on a positive from its number of bits. *)
Lemma digits2_bounds p :
  2 ^ (Zpos (digits2_pos p) - 1) ≤ Zpos p < 2 ^ Zpos (digits2_pos p).
Proof.
  rewrite digits2_pos_log2. replace (Z.log2 (Zpos p) + 1 - 1) with (Z.log2 (Zpos p)) by lia.
  pose proof (Z.log2_spec (Zpos p) ltac:(lia)) as H.
  replace (Z.succ (Z.log2 (Zpos p))) with (Z.log2 (Zpos p) + 1) in H by lia. exact H.
Qed.

Lemma digits2_unique p d :
  2 ^ (d - 1) ≤ Zpos p < 2 ^ d → Zpos (digits2_pos p) = d.
Proof.
  intros [Hlo Hhi]. rewrite digits2_pos_log2.
  assert (0 < d).
  { destruct (Z.lt_trichotomy d 0) as [Hd|[->|Hd]]; [|simpl in Hhi; lia|done].
    rewrite Z.pow_neg_r in Hhi by lia. lia. }
  rewrite (Z.log2_unique (Zpos p) (d - 1)); [lia|lia|].
  replace (Z.succ (d - 1)) with d by lia. done.
Qed.


Lemma digits2_lt_pow2 p d : 0 ≤ d → Zpos p < 2 ^ d ↔ Zpos (digits2_pos p) ≤ d.
Proof.
  intros Hd. rewrite digits2_pos_log2.
  pose proof (Z.log2_lt_pow2 (Zpos p) d ltac:(lia)). lia.
Qed.





Lemma normal_int k (e : Z) : Zpos k < 2 ^ 53 → 0 ≤ e ≤ 900 → normal k e.
Proof.
  intros Hk He. apply digits2_lt_pow2 in Hk; [|lia].
  unfold normal. pose proof (Pos2Z.is_pos (digits2_pos k)). lia.
Qed.









(** ** [ORDER BY]: a sorted permutation *)

Section Order.
Context {A : Type} (le : A → A → bool).

Lemma insert_by_perm x l : Sql.insert_by le x l ≡ₚ x :: l.
Proof.
  induction l as [|y l IH]; simpl; [done|].
  destruct (le x y); [done|]. rewrite IH. apply Permutation_swap.
Qed.

Lemma foldr_insert_by_perm l : foldr (Sql.insert_by le) [] l ≡ₚ l.
Proof.
  induction l as [|x l IH]; simpl; [done|]. by rewrite insert_by_perm, IH.
Qed.

Hypothesis le_total : ∀ x y, le x y = true ∨ le y x = true.

Lemma insert_by_sorted x l :
  Sorted (λ a b, le a b = true) l → Sorted (λ a b, le a b = true) (Sql.insert_by le x l).
Proof.
  induction l as [|y l IH]; intros Hs; simpl.
  - repeat constructor.
  - destruct (le x y) eqn:Hxy.
    + constructor; [done|]. by constructor.
    + apply Sorted_inv in Hs as [Hs Hhd]. constructor; [by apply IH|].
      destruct l as [|z l]; simpl.
      * constructor. destruct (le_total x y); congruence.
      * destruct (le x z); constructor.
        -- destruct (le_total x y); congruence.
        -- by apply HdRel_inv in Hhd.
Qed.

Lemma foldr_insert_by_sorted l :
  Sorted (λ a b, le a b = true) (foldr (Sql.insert_by le) [] l).
Proof.
  induction l as [|x l IH]; simpl; [constructor|]. by apply insert_by_sorted.
Qed.
End Order.

Lemma order_by_perm {A} (key : A → number) l : Sql.order_by key l ≡ₚ l.
Proof. apply foldr_insert_by_perm. Qed.


(** ** Sample data: the scenarios of the specification *)

Example sample_w_moved : db Sample.w_moved = [Sample.T_moved].
Proof. vm_compute. reflexivity. Qed.

Example sample_w_edited : db Sample.w_edited = [Sample.T_edited].
Proof. vm_compute. reflexivity. Qed.

(** ** Task service: writes *)






(** C4. When the analysis of an [updateTask] or [moveTask] call is fully
    rejected, the table is left as it was (no row, version or stamp changes)
    and the call returns the current task with a conflict payload whose
    resolution is REJECTED and whose [rejectedFields] are the fields of the
    request, all of which were rejected. *)
Theorem fully_rejected_no_write now tbl current rest :
  (∀ payload,
     Sql.select_by_id (u_taskId payload) tbl = current :: rest →
     let a := analyseConflict current (u_baseVersion payload) (u_changes payload) in
     fullyRejected a = true →
     ∃ conflict,
       updateTask now payload tbl =
         Ok ({| ur_task := current; ur_conflict := Some conflict |}, tbl)
       ∧ cr_resolution conflict = REJECTED
       ∧ cr_task conflict = current
       ∧ cr_taskId conflict = id current
       ∧ cr_mergedFields conflict = []
       ∧ cr_rejectedFields conflict = rejectedFields a
       ∧ rejectedFields a = names (u_changes payload)
       ∧ rejectedFields a ≠ [])
  ∧ (∀ payload,
     Sql.select_by_id (m_taskId payload) tbl = current :: rest →
     let a := analyseConflict current (m_baseVersion payload) (move_changes payload) in
     fullyRejected a = true →
     ∃ conflict,
       moveTask now payload tbl =
         Ok ({| mr_task := current; mr_conflict := Some conflict;
                mr_needsRebalance := false |}, tbl)
       ∧ cr_resolution conflict = REJECTED
       ∧ cr_task conflict = current
       ∧ cr_taskId conflict = id current
       ∧ cr_mergedFields conflict = []
       ∧ cr_rejectedFields conflict = rejectedFields a
       ∧ rejectedFields a = names (move_changes payload)
       ∧ rejectedFields a ≠ []).
Proof.
  assert (Hall : ∀ baseVersion changes,
            fullyRejected (analyseConflict current baseVersion changes) = true →
            rejectedFields (analyseConflict current baseVersion changes) = names changes
            ∧ rejectedFields (analyseConflict current baseVersion changes) ≠ []).
  { intros baseVersion changes Hfr.
    destruct (analyseConflict_flags current baseVersion changes) as [_ Hflag].
    destruct (analyseConflict_names current baseVersion changes) as [Hmf Hrf].
    simpl in *. rewrite Hflag in Hfr. apply bool_decide_eq_true in Hfr as [Hnil Hne].
    split; [|done]. rewrite Hrf. rewrite Hnil in Hmf. clear -Hmf.
    induction changes as [|c rest IH]; [done|].
    rewrite filter_cons in Hmf. rewrite filter_cons.
    destruct (decide (mergeable current baseVersion c)) as [Hm|Hm]; [done|].
    rewrite decide_True by done. unfold names in *. rewrite !fmap_cons. f_equal. auto. }
  split; intros payload Hsel a Hfr; destruct (Hall _ _ Hfr) as [Hnames Hne].
  - exists (rejected_conflict current a). unfold updateTask. rewrite Hsel. fold a. rewrite Hfr.
    by split_and!.
  - exists (rejected_conflict current a). unfold moveTask. rewrite Hsel.
    fold (move_changes payload). fold a. rewrite Hfr. by split_and!.
Qed.

(** ** C3: a partial merge of a move *)

Example rebalance_reaches_T_rebalanced :
  rebalanceColumn "t1" todo [Sample.T] =
  Ok ([PartialMove.T_rebalanced], [PartialMove.T_rebalanced]).
Proof. vm_compute. reflexivity. Qed.

(** C3 at the failing input.  The move merges [columnId] and rejects
    [position]; the row keeps its position, yet [moveTask] stamps the rejected
    field too: [positionVersion] goes from 2 to the new version 3.  The
    in-memory [mem_moveTask] does the same. *)
Theorem moveTask_partial_merge_restamps_rejected_field :
  let a := analyseConflict PartialMove.T_rebalanced 1 (move_changes PartialMove.move) in
  mergedFields a = ["columnId"]
  ∧ rejectedFields a = ["position"]
  ∧ moveTask "t2" PartialMove.move [PartialMove.T_rebalanced] =
      Ok ({| mr_task := PartialMove.T_after;
             mr_conflict := merged_conflict PartialMove.T_after a;
             mr_needsRebalance := false |}, [PartialMove.T_after])
  ∧ Mem.mem_moveTask "t2" PartialMove.move [PartialMove.T_rebalanced] =
      Ok ({| mr_task := PartialMove.T_after;
             mr_conflict := merged_conflict PartialMove.T_after a;
             mr_needsRebalance := false |}, [PartialMove.T_after])
  ∧ position PartialMove.T_after = position PartialMove.T_rebalanced
  ∧ positionVersion PartialMove.T_rebalanced = 2
  ∧ positionVersion PartialMove.T_after = 3.
Proof. vm_compute. repeat split. Qed.

(** ** Message router *)

Lemma broadcast_None message conns :
  broadcast message None conns =
  (λ kv, (kv.1, message)) <$> filter (λ kv : string * ReadyState, kv.2 = OPEN) conns.
Proof.
  induction conns as [|[clientId ws] conns IH]; [done|].
  cbn [broadcast]. rewrite filter_cons. simpl.
  destruct (decide (ws = OPEN)); [rewrite fmap_cons; simpl|]; by rewrite IH.
Qed.

Lemma sendTo_only clientId message conns d :
  d ∈ sendTo clientId message conns → d = (clientId, message).
Proof.
  unfold sendTo. destruct (getConnection clientId conns) as [[]|];
    rewrite ?elem_of_nil, ?list_elem_of_singleton; done.
Qed.


(** C6, as the code has it.  When the analysis of an [UPDATE_TASK] or
    [MOVE_TASK] is fully rejected, the router sends CONFLICT_RESOLVED with
    resolution REJECTED to the sender and then TASK_UPDATED, respectively
    TASK_MOVED, carrying the unchanged current task to every open connection,
    the sender's included; the table is unchanged. *)
Theorem rejected_notifies_all env clientId w current rest :
  (∀ payload,
     Sql.select_by_id (u_taskId payload) (db w) = current :: rest →
     let a := analyseConflict current (u_baseVersion payload) (u_changes payload) in
     fullyRejected a = true →
     let w' := handleMessage env clientId (UPDATE_TASK payload) w in
     db w' = db w
     ∧ cr_resolution (rejected_conflict current a) = REJECTED
     ∧ outbox w' =
         outbox w
         ++ sendTo clientId (CONFLICT_RESOLVED (rejected_conflict current a)) (connections w)
         ++ ((λ kv, (kv.1, TASK_UPDATED current)) <$>
               filter (λ kv : string * ReadyState, kv.2 = OPEN) (connections w)))
  ∧ (∀ payload,
     Sql.select_by_id (m_taskId payload) (db w) = current :: rest →
     let a := analyseConflict current (m_baseVersion payload) (move_changes payload) in
     fullyRejected a = true →
     let w' := handleMessage env clientId (MOVE_TASK payload) w in
     db w' = db w
     ∧ cr_resolution (rejected_conflict current a) = REJECTED
     ∧ outbox w' =
         outbox w
         ++ sendTo clientId (CONFLICT_RESOLVED (rejected_conflict current a)) (connections w)
         ++ ((λ kv, (kv.1, TASK_MOVED current)) <$>
               filter (λ kv : string * ReadyState, kv.2 = OPEN) (connections w))).
Proof.
  split; intros payload Hsel a Hfr w'; subst w'.
  - unfold handleMessage, guarded, handleUpdateTask, updateTask.
    rewrite Hsel. fold a. rewrite Hfr. simpl.
    by rewrite broadcast_None, <- app_assoc.
  - unfold handleMessage, guarded, handleMoveTask, moveTask.
    rewrite Hsel. fold (move_changes payload). fold a. rewrite Hfr. simpl.
    by rewrite broadcast_None, <- app_assoc.
Qed.

(** ** Rebalance *)

Lemma select_by_id_absent (tbl : list Task) taskId :
  taskId ∉ id <$> tbl → Sql.select_by_id taskId tbl = [].
Proof.
  unfold Sql.select_by_id. induction tbl as [|x tbl IH]; intros Hnin; [done|].
  rewrite fmap_cons in Hnin. apply not_elem_of_cons in Hnin as [Hne Hnin].
  rewrite filter_cons, decide_False by done. by apply IH.
Qed.

Lemma select_by_id_unique (tbl : list Task) r :
  NoDup (id <$> tbl) → r ∈ tbl → Sql.select_by_id (id r) tbl = [r].
Proof.
  induction tbl as [|x tbl IH]; intros Hnd Hin.
  - by apply elem_of_nil in Hin.
  - rewrite fmap_cons in Hnd. apply NoDup_cons in Hnd as [Hx Hnd].
    unfold Sql.select_by_id. rewrite filter_cons.
    apply elem_of_cons in Hin as [->|Hin].
    + rewrite decide_True by done. f_equal. by apply select_by_id_absent.
    + rewrite decide_False.
      * by apply IH.
      * intros Heq. apply Hx. rewrite Heq. apply list_elem_of_fmap. eauto.
Qed.

Lemma update_by_id_ids now taskId set (tbl : list Task) :
  (∀ r, id (set r) = id r) →
  id <$> (Sql.update_by_id now taskId set tbl).1 = id <$> tbl.
Proof.
  intros Hid. unfold Sql.update_by_id. simpl. rewrite <- list_fmap_compose.
  apply list_fmap_ext. intros i r _. simpl.
  destruct (decide (id r = taskId)); [simpl; apply Hid|done].
Qed.

Lemma rebalance_loop_spec now rows : ∀ i (tbl : list Task) updates,
  NoDup (id <$> tbl) → NoDup (id <$> rows) → (∀ r, r ∈ rows → r ∈ tbl) →
  rebalance_loop now i rows tbl updates =
    Ok (updates ++ imap (λ k r, rebalanced now (i + k) r) rows,
        rebalanced_table now i rows tbl).
Proof.
  induction rows as [|row rest IH]; intros i tbl updates Hnd Hrows Hsub.
  - simpl. rewrite app_nil_r. unfold rebalanced_table. simpl.
    by rewrite list_fmap_id.
  - cbn [rebalance_loop].
    rewrite fmap_cons in Hrows. apply NoDup_cons in Hrows as [Hrow Hrest].
    assert (Hin : row ∈ tbl) by (apply Hsub; left).
    set (set_ := λ r : Task,
           with_positionVersion (version row + 1)
             (with_version (version row + 1)
                (with_position (Num.mul (Num.add (Num.of_nat i) Num.one) INITIAL_STEP) r))).
    assert (Hset : ∀ r, id (set_ r) = id r) by done.
    pose proof (update_by_id_ids now (id row) set_ tbl Hset) as Hids.
    destruct (Sql.update_by_id now (id row) set_ tbl) as [tbl1 rows1] eqn:Hupd.
    assert (Hrows1 : rows1 = [rebalanced now i row]).
    { unfold Sql.update_by_id in Hupd. injection Hupd as _ <-.
      by rewrite select_by_id_unique. }
    assert (Htbl1 : tbl1 = (λ r, if decide (id r = id row)
                                 then with_updatedAt now (set_ r) else r) <$> tbl).
    { unfold Sql.update_by_id in Hupd. by injection Hupd as <- _. }
    simpl in Hids. subst rows1. rewrite IH; [|by rewrite Hids|done|].
    + f_equal. f_equal.
      * rewrite <- app_assoc. f_equal. rewrite imap_cons. simpl.
        rewrite Nat.add_0_r. f_equal. apply imap_ext. intros k r _. simpl.
        by rewrite Nat.add_succ_r.
      * subst tbl1. unfold rebalanced_table. rewrite <- list_fmap_compose.
        apply list_fmap_ext. intros j r Hj. simpl.
        apply list_elem_of_lookup_2 in Hj.
        destruct (decide (id r = id row)) as [Heq|Hne].
        -- rewrite decide_True by done. simpl.
           assert (r = row) as ->.
           { pose proof (select_by_id_unique tbl r Hnd Hj) as H1.
             pose proof (select_by_id_unique tbl row Hnd Hin) as H2.
             rewrite Heq in H1. congruence. }
           rewrite Nat.add_0_r.
           destruct (list_find _ rest) as [[k x]|] eqn:Hfind; [|done].
           apply list_find_Some in Hfind as (Hk & Hkid & _). simpl in Hkid.
           exfalso. apply Hrow. rewrite <- Hkid. apply list_elem_of_fmap.
           exists x. split; [done|]. by eapply list_elem_of_lookup_2.
        -- rewrite decide_False by done. simpl.
           destruct (list_find _ rest) as [[k x]|]; simpl; [|done].
           by rewrite Nat.add_succ_r.
    + intros r Hr. subst tbl1. apply list_elem_of_fmap. exists r.
      rewrite decide_False; [split; [done|]; apply Hsub; by right|].
      intros Heq. apply Hrow. rewrite <- Heq. apply list_elem_of_fmap. eauto.
Qed.



Lemma rebalance_rows_in_table col (tbl : list Task) :
  NoDup (id <$> tbl) →
  let rows := Sql.order_by position (Sql.select_by_column col tbl) in
  NoDup (id <$> rows) ∧ (∀ r, r ∈ rows → r ∈ tbl ∧ columnId r = col).
Proof.
  intros Hnd rows.
  assert (Hperm : rows ≡ₚ Sql.select_by_column col tbl) by apply order_by_perm.
  split.
  - rewrite Hperm. unfold Sql.select_by_column.
    eapply sublist_NoDup; [exact Hnd|]. apply fmap_sublist, sublist_filter.
  - intros r Hr. rewrite Hperm in Hr.
    apply list_elem_of_filter in Hr as [Hc Hr]. done.
Qed.


(** ** [positionBetween] *)





(** ** Positions in reachable states *)






(** The table after each operation. *)


Lemma updateTask_table now p (tbl : list Task) :
  committed (updateTask now p tbl) tbl = tbl
  ∨ ∃ f : Task → Task,
      (∀ r, id (f r) = id r ∧ columnId (f r) = columnId r ∧ position (f r) = position r)
      ∧ committed (updateTask now p tbl) tbl = f <$> tbl.
Proof.
  unfold updateTask.
  destruct (Sql.select_by_id (u_taskId p) tbl) as [|current rest] eqn:Hsel; [by left|].
  destruct (fullyRejected _); [by left|].
  unfold Sql.update_by_id. rewrite Hsel. simpl. right.
  eexists. split; [|reflexivity]. intros r. simpl.
  destruct (decide (id r = u_taskId p)); [|done].
  unfold update_sets. by destruct (get_title _), (get_description _).
Qed.

Lemma moveTask_table now p (tbl : list Task) :
  committed (moveTask now p tbl) tbl = tbl
  ∨ ∃ res tbl' current upd,
      moveTask now p tbl = Ok (res, tbl')
      ∧ current ∈ tbl ∧ id current = m_taskId p
      ∧ (∀ r, id (upd r) = id r
              ∧ columnId (upd r) = columnId (mr_task res)
              ∧ position (upd r) = position (mr_task res))
      ∧ tbl' = (λ r, if decide (id r = m_taskId p) then upd r else r) <$> tbl.
Proof.
  unfold moveTask.
  destruct (Sql.select_by_id (m_taskId p) tbl) as [|current rest] eqn:Hsel; [by left|].
  assert (Hcur : current ∈ tbl ∧ id current = m_taskId p).
  { assert (Hin : current ∈ Sql.select_by_id (m_taskId p) tbl) by (rewrite Hsel; left).
    apply list_elem_of_filter in Hin as [? ?]. done. }
  destruct (fullyRejected _); [by left|].
  unfold Sql.update_by_id. rewrite Hsel. simpl. right.
  eexists _, _, current, _. split; [reflexivity|].
  split; [apply Hcur|]. split; [apply Hcur|]. split; [|reflexivity].
  intros r. simpl. done.
Qed.

Lemma deleteTask_table p (tbl : list Task) :
  committed (deleteTask p tbl) tbl = filter (λ r, id r ≠ d_taskId p) tbl.
Proof.
  unfold deleteTask, Sql.delete_by_id.
  by destruct (Sql.select_by_id (d_taskId p) tbl).
Qed.

Lemma rebalanceColumn_table now col (tbl : list Task) :
  NoDup (id <$> tbl) →
  committed (rebalanceColumn now col tbl) tbl =
  rebalanced_table now 0 (Sql.order_by position (Sql.select_by_column col tbl)) tbl.
Proof.
  intros Hnd. destruct (rebalance_rows_in_table col tbl Hnd) as [Hrows Hsub].
  unfold rebalanceColumn.
  by rewrite rebalance_loop_spec by (done || intros r Hr; by apply Hsub).
Qed.

Lemma same_id_same_row (tbl : list Task) t u :
  NoDup (id <$> tbl) → t ∈ tbl → u ∈ tbl → id t = id u → t = u.
Proof.
  intros Hnd Ht Hu Heq.
  pose proof (select_by_id_unique tbl t Hnd Ht) as H1.
  pose proof (select_by_id_unique tbl u Hnd Hu) as H2.
  rewrite Heq in H1. congruence.
Qed.



Lemma ids_fmap (f : Task → Task) (tbl : list Task) :
  (∀ r, id (f r) = id r) → id <$> (f <$> tbl) = id <$> tbl.
Proof.
  intros Hf. rewrite <- list_fmap_compose. apply list_fmap_ext. intros i r _. apply Hf.
Qed.





(** ** Binary64 arithmetic: rounding yields well-formed doubles *)

Lemma shr_1_m mrs : 0 ≤ shr_m mrs → shr_m (shr_1 mrs) = shr_m mrs / 2.
Proof.
  destruct mrs as [m r s]. simpl. intros Hm.
  destruct m as [|[p|p|]|p]; simpl; try reflexivity; try lia.
  - rewrite Pos2Z.inj_xI. apply (Z.div_unique _ _ _ 1); lia.
  - rewrite Pos2Z.inj_xO. apply (Z.div_unique _ _ _ 0); lia.
Qed.

Lemma iter_shr_1_m n mrs :
  0 ≤ shr_m mrs → shr_m (Nat.iter n shr_1 mrs) = shr_m mrs / 2 ^ Z.of_nat n.
Proof.
  intros Hm. induction n as [|n IH].
  - simpl. by rewrite Z.div_1_r.
  - simpl Nat.iter. rewrite shr_1_m, IH.
    + rewrite Nat2Z.inj_succ, Z.pow_succ_r by lia.
      rewrite Z.div_div by (try apply Z.pow_pos_nonneg; lia). f_equal. lia.
    + rewrite IH. apply Z.div_pos; [done|]. apply Z.pow_pos_nonneg; lia.
Qed.

Lemma shr_m_nat mrs e (n : nat) :
  0 ≤ shr_m mrs →
  shr_m (shr mrs e (Z.of_nat n)).1 = shr_m mrs / 2 ^ Z.of_nat n
  ∧ (shr mrs e (Z.of_nat n)).2 = e + Z.of_nat n.
Proof.
  intros Hm. destruct n as [|n].
  - simpl. rewrite Z.div_1_r. split; [done|lia].
  - change (Z.of_nat (S n)) with (Zpos (Pos.of_succ_nat n)). unfold shr.
    rewrite iter_pos_nat, SuccNat2Pos.id_succ. cbn [fst snd].
    split; [|done]. by rewrite iter_shr_1_m.
Qed.

Lemma round_nearest_even_bounds m l :
  m ≤ round_nearest_even m l ≤ m + 1.
Proof.
  unfold round_nearest_even. destruct l as [|[]]; try destruct (Z.even m); lia.
Qed.

Lemma canonical_iff m e :
  canonical_mantissa Num.prec Num.emax m e = true ↔
  Z.max (Zpos (digits2_pos m) + e - 53) (-1074) = e.
Proof.
  unfold canonical_mantissa. rewrite Z.eqb_eq.
  change (SpecFloat.fexp Num.prec Num.emax) with Num.fexp. by rewrite fexp_eq.
Qed.

Lemma valid_finite s m e :
  Num.valid (S754_finite s m e) = true ↔
  Z.max (Zpos (digits2_pos m) + e - 53) (-1074) = e ∧ e ≤ 971.
Proof.
  unfold Num.valid, valid_binary, bounded. rewrite andb_true_iff, canonical_iff.
  rewrite Z.leb_le. reflexivity.
Qed.

(** Rounding a positive integer mantissa at an exponent of the format gives
    a well-formed double of the same sign that is not zero. *)
Lemma binary_round_valid s m e :
  -1074 ≤ e →
  Num.valid (binary_round Num.prec Num.emax s m e) = true
  ∧ signed s (binary_round Num.prec Num.emax s m e).
Proof.
  intros He. set (d := Zpos (digits2_pos m)).
  assert (Hd : 0 < d) by (unfold d; lia).
  destruct (Z.le_gt_cases d 53) as [Hle|Hgt].
  - (* the mantissa fits: it is shifted left *)
    set (n := Z.to_nat (e - Z.max (d + e - 53) (-1074))).
    destruct (Z.le_gt_cases (Z.max (d + e - 53) (-1074)) 971) as [Hmax|Hmax].
    + rewrite (binary_round_shl s m n e); [| |lia].
      * split; [|done]. apply valid_finite. rewrite pshl_digits. fold d. lia.
      * rewrite fexp_eq. fold d. lia.
    + unfold binary_round. change (SpecFloat.fexp Num.prec Num.emax) with Num.fexp.
      rewrite fexp_eq. fold d.
      replace (Z.max (d + e - 53) (-1074)) with (e - Z.of_nat n) by lia.
      rewrite shl_align_pshl.
      unfold binary_round_aux, shr_fexp. cbn [shr_record_of_loc Zdigits2].
      change (SpecFloat.fexp Num.prec Num.emax) with Num.fexp.
      rewrite pshl_digits, fexp_eq. fold d.
      replace (Z.max (d + Z.of_nat n + (e - Z.of_nat n) - 53) (-1074) - (e - Z.of_nat n))
        with 0 by lia.
      cbn [shr shr_m loc_of_shr_record round_nearest_even shr_record_of_loc Zdigits2].
      change (SpecFloat.fexp Num.prec Num.emax) with Num.fexp.
      rewrite pshl_digits, fexp_eq. fold d.
      replace (Z.max (d + Z.of_nat n + (e - Z.of_nat n) - 53) (-1074) - (e - Z.of_nat n))
        with 0 by lia.
      cbn [shr shr_m].
      destruct (Z.leb_spec (e - Z.of_nat n) (Num.emax - Num.prec)) as [Hl|_]; [|done].
      unfold Num.emax, Num.prec in Hl. lia.
  - (* the mantissa is too long: it is shifted right and rounded *)
    set (n := Z.to_nat (d - 53)).
    assert (Hn : Z.of_nat n = d - 53) by lia.
    unfold binary_round. change (SpecFloat.fexp Num.prec Num.emax) with Num.fexp.
    rewrite fexp_eq. fold d. rewrite shl_align_ge by lia.
    assert (Hs1 : shr_fexp Num.prec Num.emax (Zpos m) e loc_Exact =
                  shr (Build_shr_record (Zpos m) false false) e (Z.of_nat n)).
    { unfold shr_fexp. cbn [shr_record_of_loc Zdigits2].
      change (SpecFloat.fexp Num.prec Num.emax) with Num.fexp. rewrite fexp_eq. fold d.
      f_equal. lia. }
    unfold binary_round_aux. rewrite Hs1.
    destruct (shr_m_nat (Build_shr_record (Zpos m) false false) e n) as [Hm1 He1]; [simpl; lia|].
    destruct (shr _ e (Z.of_nat n)) as [mrs1 e1]. simpl in Hm1, He1. subst e1.
    pose proof (digits2_bounds m) as [Hlo Hhi]. fold d in Hlo, Hhi.
    assert (Hpow : 0 < 2 ^ Z.of_nat n) by (apply Z.pow_pos_nonneg; lia).
    assert (Hm1lo : 2 ^ 52 ≤ shr_m mrs1).
    { rewrite Hm1. apply Z.div_le_lower_bound; [done|].
      rewrite Z.mul_comm, <- Z.pow_add_r by lia.
      by replace (52 + Z.of_nat n) with (d - 1) by lia. }
    assert (Hm1hi : shr_m mrs1 < 2 ^ 53).
    { rewrite Hm1. apply Z.div_lt_upper_bound; [done|].
      rewrite <- Z.pow_add_r by lia.
      by replace (Z.of_nat n + 53) with d by lia. }
    pose proof (round_nearest_even_bounds (shr_m mrs1) (loc_of_shr_record mrs1)) as Hm2.
    destruct (round_nearest_even (shr_m mrs1) (loc_of_shr_record mrs1)) as [|p2|p2];
      [lia| |lia].
    destruct (Z.eq_dec (Zpos p2) (2 ^ 53)) as [Heq|Hne].
    + change (2 ^ 53) with (Zpos 9007199254740992) in Heq. injection Heq as ->.
      assert (Hs2 : shr_fexp Num.prec Num.emax (Zpos 9007199254740992) (e + Z.of_nat n) loc_Exact =
                    (Build_shr_record (Zpos 4503599627370496) false false, e + Z.of_nat n + 1)).
      { unfold shr_fexp. cbn [shr_record_of_loc Zdigits2].
        change (SpecFloat.fexp Num.prec Num.emax) with Num.fexp. rewrite fexp_eq.
        change (Zpos (digits2_pos 9007199254740992)) with 54.
        replace (Z.max (54 + (e + Z.of_nat n) - 53) (-1074) - (e + Z.of_nat n)) with 1 by lia.
        reflexivity. }
      rewrite Hs2. cbn [shr_m].
      destruct (Z.leb_spec (e + Z.of_nat n + 1) (Num.emax - Num.prec)) as [Hl|_]; [|done].
      split; [|done]. apply valid_finite.
      change (Zpos (digits2_pos 4503599627370496)) with 53.
      unfold Num.emax, Num.prec in Hl. lia.
    + assert (Hd2 : Zpos (digits2_pos p2) = 53) by (apply digits2_unique; lia).
      assert (Hs2 : shr_fexp Num.prec Num.emax (Zpos p2) (e + Z.of_nat n) loc_Exact =
                    (Build_shr_record (Zpos p2) false false, e + Z.of_nat n)).
      { unfold shr_fexp. cbn [shr_record_of_loc Zdigits2].
        change (SpecFloat.fexp Num.prec Num.emax) with Num.fexp. rewrite fexp_eq, Hd2.
        replace (Z.max (53 + (e + Z.of_nat n) - 53) (-1074) - (e + Z.of_nat n)) with 0 by lia.
        reflexivity. }
      rewrite Hs2. cbn [shr_m].
      destruct (Z.leb_spec (e + Z.of_nat n) (Num.emax - Num.prec)) as [Hl|_]; [|done].
      split; [|done]. apply valid_finite. rewrite Hd2. unfold Num.emax, Num.prec in Hl. lia.
Qed.

Lemma binary_normalize_ok z e sz :
  -1074 ≤ e → ok (binary_normalize Num.prec Num.emax z e sz).
Proof.
  intros He. destruct z as [|p|p]; simpl; [done| |].
  - destruct (binary_round_valid false p e He) as [Hv Hs]. split; [done|].
    by destruct (binary_round _ _ _ _ _).
  - destruct (binary_round_valid true p e He) as [Hv Hs]. split; [done|].
    by destruct (binary_round _ _ _ _ _).
Qed.

Lemma valid_exponent s m e : Num.valid (S754_finite s m e) = true → -1074 ≤ e.
Proof. intros [Hc _]%valid_finite. lia. Qed.


Lemma gtb_signed s x : signed s x → Num.gtb x Num.zero = negb s.
Proof. destruct x as [| | |s' m e]; simpl; try done; intros ->; by destruct s. Qed.

(** The aligned mantissas of two well-formed doubles compare as the doubles'
    magnitudes do: by exponent first, then by mantissa. *)
Lemma align_compare mx ex my ey :
  Num.valid (S754_finite false mx ex) = true →
  Num.valid (S754_finite false my ey) = true →
  let ez := Z.min ex ey in
  (Zpos (shl_align mx ex ez).1 ?= Zpos (shl_align my ey ez).1) =
  match ex ?= ey with
  | Lt => Lt
  | Gt => Gt
  | Eq => Pos.compare_cont Eq mx my
  end.
Proof.
  intros [Hcx _]%valid_finite [Hcy _]%valid_finite ez.
  pose proof (digits2_bounds mx) as [Hxlo Hxhi].
  pose proof (digits2_bounds my) as [Hylo Hyhi].
  assert (Hbig : ∀ (m m' : positive) (e e' : Z),
            Z.max (Zpos (digits2_pos m) + e - 53) (-1074) = e →
            Z.max (Zpos (digits2_pos m') + e' - 53) (-1074) = e' →
            e < e' → Zpos m < Zpos (Num.pshl m' (Z.to_nat (e' - e)))).
  { intros m m' e e' Hc Hc' Hlt.
    pose proof (digits2_bounds m) as [_ Hhi]. pose proof (digits2_bounds m') as [Hlo _].
    assert (Hd' : Zpos (digits2_pos m') = 53) by lia. rewrite Hd' in Hlo.
    assert (Zpos m < 2 ^ 53).
    { eapply Z.lt_le_trans; [exact Hhi|]. apply Z.pow_le_mono_r; lia. }
    rewrite pshl_Z, Z2Nat.id by lia.
    assert (2 ^ 1 ≤ 2 ^ (e' - e)) by (apply Z.pow_le_mono_r; lia).
    change (2 ^ 53) with (2 ^ (53 - 1) * 2 ^ 1) in *. nia. }
  destruct (Z.compare_spec ex ey) as [->|Hlt|Hgt].
  - unfold ez. rewrite Z.min_id, !shl_align_ge by lia. simpl.
    rewrite Pos.compare_cont_spec. by destruct (mx ?= my)%positive.
  - unfold ez. rewrite Z.min_l by lia. rewrite shl_align_ge by lia.
    replace ex with (ey - Z.of_nat (Z.to_nat (ey - ex))) at 2 by lia.
    rewrite shl_align_pshl. cbn [fst]. apply Z.compare_lt_iff. by apply Hbig.
  - unfold ez. rewrite Z.min_r by lia. rewrite (shl_align_ge my) by lia.
    replace ey with (ex - Z.of_nat (Z.to_nat (ex - ey))) at 1 by lia.
    rewrite shl_align_pshl. cbn [fst]. apply Z.compare_gt_iff. by apply Hbig.
Qed.

Lemma gtb_binary_normalize D e :
  -1074 ≤ e →
  Num.gtb (binary_normalize Num.prec Num.emax D e false) Num.zero = (0 <? D).
Proof.
  intros He. destruct D as [|p|p]; simpl binary_normalize; [done| |].
  - destruct (binary_round_valid false p e He) as [_ Hs]. by rewrite (gtb_signed false).
  - destruct (binary_round_valid true p e He) as [_ Hs]. by rewrite (gtb_signed true).
Qed.

(** The comparator [a - b] of [Array.prototype.sort] orders well-formed
    doubles as [float8] does. *)
Lemma sub_gt_zero x y :
  ok x → ok y → Num.gtb (Num.sub x y) Num.zero = negb (Sql.float8_le x y).
Proof.
  intros [Hvx Hnx] [Hvy Hny].
  destruct x as [sx|sx| |sx mx ex], y as [sy|sy| |sy my ey]; try discriminate;
    try (by repeat match goal with b : bool |- _ => destruct b end).
  pose proof (valid_exponent _ _ _ Hvx) as Hex. pose proof (valid_exponent _ _ _ Hvy) as Hey.
  pose proof (align_compare mx ex my ey Hvx Hvy) as Hal. cbv zeta in Hal.
  unfold Num.sub, SFsub. rewrite gtb_binary_normalize by lia.
  unfold Sql.float8_le, Num.leb, SFleb, SFcompare. cbn [Num.is_nan].
  set (A1 := Zpos (shl_align mx ex (Z.min ex ey)).1) in *.
  set (A2 := Zpos (shl_align my ey (Z.min ex ey)).1) in *.
  assert (HA1 : 0 < A1) by (unfold A1; lia). assert (HA2 : 0 < A2) by (unfold A2; lia).
  destruct sx, sy; cbn [cond_Zopp].
  - (* both negative *)
    replace (match ex ?= ey with
             | Eq => CompOpp (Pos.compare_cont Eq mx my) | Lt => Gt | Gt => Lt end)
      with (CompOpp (A1 ?= A2)) by (rewrite Hal; by destruct (ex ?= ey)).
    destruct (Z.compare_spec A1 A2); simpl; lia.
  - destruct (Z.ltb_spec 0 (- A1 - A2)); [lia|done].
  - destruct (Z.ltb_spec 0 (A1 - - A2)); [done|lia].
  - (* both positive *)
    rewrite <- Hal. destruct (Z.compare_spec A1 A2); simpl; lia.
Qed.

(** ** The order of doubles is transitive *)

Lemma Pos_compare_cont_Eq p q : Pos.compare_cont Eq p q = (p ?= q)%positive.
Proof. rewrite Pos.compare_cont_spec. by destruct (p ?= q)%positive. Qed.


(** ** The order of [float8] and the comparisons of JavaScript *)

Lemma SFcompare_Some x y :
  Num.is_nan x = false → Num.is_nan y = false → ∃ c, SFcompare x y = Some c.
Proof.
  intros Hx Hy. destruct (SFcompare x y) as [c|] eqn:Hc; [eauto|].
  apply SFcompare_None in Hc as [Hc|Hc]; congruence.
Qed.




(** ** [MAX(position)] and [Math.max] *)

Lemma zsim_refl a : zsim a a.
Proof. by left. Qed.

Lemma SFcompare_Eq x y : SFcompare x y = Some Eq → zsim x y.
Proof.
  destruct x as [sx|sx| |sx mx ex], y as [sy|sy| |sy my ey]; simpl;
    repeat match goal with b : bool |- _ => destruct b end;
    try discriminate; intros Hc; try (by left); try (by right; eauto).
  - destruct (Z.compare_spec ex ey) as [->| |]; try discriminate.
    rewrite Pos_compare_cont_Eq in Hc.
    destruct (Pos.compare_spec mx my) as [->| |]; try discriminate. by left.
  - destruct (Z.compare_spec ex ey) as [->| |]; try discriminate.
    rewrite Pos_compare_cont_Eq in Hc.
    destruct (Pos.compare_spec mx my) as [->| |]; try discriminate. by left.
Qed.

Lemma SFcompare_zsim a b y : zsim a b → SFcompare a y = SFcompare b y.
Proof. intros [->|(s & s' & -> & ->)]; [done|]. by destruct y. Qed.

Lemma SFcompare_zsim_r a b y : zsim a b → SFcompare y a = SFcompare y b.
Proof. intros [->|(s & s' & -> & ->)]; [done|]. by destruct y. Qed.

Lemma zsim_is_nan a b : zsim a b → Num.is_nan a = Num.is_nan b.
Proof. by intros [->|(s & s' & -> & ->)]. Qed.

Lemma max_step_zsim a b y :
  zsim a b →
  zsim (if Sql.float8_le a y then y else a) (Mem.math_max_step b y).
Proof.
  intros Hab. unfold Sql.float8_le, Mem.math_max_step.
  rewrite (zsim_is_nan a b Hab).
  destruct (Num.is_nan b) eqn:Hb.
  - destruct Hab as [->|(s & s' & -> & ->)]; [|done].
    destruct (Num.is_nan y) eqn:Hy; [|by left].
    destruct b, y; try discriminate. by left.
  - destruct (Num.is_nan y) eqn:Hy; [by left|].
    unfold Num.leb, Num.gtb, Num.ltb, SFleb, SFltb.
    rewrite (SFcompare_zsim a b y Hab).
    destruct (SFcompare_Some b y Hb Hy) as [c Hc]. rewrite Hc.
    assert (Hgen : zsim (match c with Gt => a | _ => y end)
                     (match c with Lt => y | _ => b end)).
    { destruct c; [|by left|done].
      apply SFcompare_Eq in Hc. destruct Hc as [->|(s & s' & -> & ->)]; [by left|].
      right. eauto. }
    destruct b as [[]| | |], y as [[]| | |]; try (by destruct c);
      injection Hc as <-; right; eauto.
Qed.

Lemma foldl_max_zsim l : ∀ a b,
  zsim a b →
  zsim (foldl (λ acc y, if Sql.float8_le acc y then y else acc) a l)
       (foldl Mem.math_max_step b l).
Proof.
  induction l as [|y l IH]; intros a b Hab; [done|].
  simpl. apply IH. by apply max_step_zsim.
Qed.

Lemma math_max_step_first x : Mem.math_max_step (S754_infinity true) x = x.
Proof. by destruct x as [[]|[]| |[]]. Qed.

Lemma add_step_zsim a b : zsim a b → Num.add a INITIAL_STEP = Num.add b INITIAL_STEP.
Proof. intros [->|(s & s' & -> & ->)]; [done|]. by destruct s, s'. Qed.

(** The end position of a column is the same in both stores. *)
Lemma positionAtEnd_agree col (tasks : list Task) :
  Mem.mem_positionAtEnd col tasks = positionAtEnd col tasks.
Proof.
  unfold Mem.mem_positionAtEnd, positionAtEnd, Sql.select_by_column.
  destruct (position <$> filter (λ r, columnId r = col) tasks) as [|x ps]; [done|].
  cbn [length Nat.eqb Sql.float8_max default]. unfold Mem.math_max.
  cbn [foldl]. rewrite math_max_step_first. symmetry.
  apply add_step_zsim, foldl_max_zsim, zsim_refl.
Qed.
(** ** The array operations and the queries *)








(** ** One operation on both stores *)






(** ** Rebalancing on both stores *)




(** ** Task sets stay well formed *)









(** ** C10: the in-memory store and the SQL-backed service agree *)


(** ** The theorems at the sample data *)



Lemma fully_rejected_no_write_witness :
  (∃ conflict,
     updateTask "t2" Sample.editB' [Sample.T_edited] =
       Ok ({| ur_task := Sample.T_edited; ur_conflict := Some conflict |}, [Sample.T_edited])
     ∧ cr_rejectedFields conflict = ["title"])
  ∧ (∃ conflict,
     moveTask "t2" Sample.moveB [Sample.T_moved] =
       Ok ({| mr_task := Sample.T_moved; mr_conflict := Some conflict;
              mr_needsRebalance := false |}, [Sample.T_moved])
     ∧ cr_rejectedFields conflict = ["columnId"; "position"]).
Proof.
  split.
  - destruct (proj1 (fully_rejected_no_write "t2" [Sample.T_edited] Sample.T_edited [])
                Sample.editB' eq_refl eq_refl)
      as (conflict & Hres & _ & _ & _ & _ & Hrf & Hall & _).
    exists conflict. split; [exact Hres|]. rewrite Hrf, Hall. reflexivity.
  - destruct (proj2 (fully_rejected_no_write "t2" [Sample.T_moved] Sample.T_moved [])
                Sample.moveB eq_refl eq_refl)
      as (conflict & Hres & _ & _ & _ & _ & Hrf & Hall & _).
    exists conflict. split; [exact Hres|]. rewrite Hrf, Hall. reflexivity.
Defined.



Lemma rejected_notifies_all_witness :
  outbox (handleMessage Sample.env "B" (MOVE_TASK Sample.moveB) Sample.w_moved) =
  outbox Sample.w_moved
  ++ [("B", CONFLICT_RESOLVED
              (rejected_conflict Sample.T_moved
                 (analyseConflict Sample.T_moved 1 (move_changes Sample.moveB))));
      ("A", TASK_MOVED Sample.T_moved);
      ("B", TASK_MOVED Sample.T_moved)].
Proof.
  exact (proj2 (proj2 (proj2 (rejected_notifies_all Sample.env "B" Sample.w_moved
                                Sample.T_moved [])
                         Sample.moveB eq_refl eq_refl))).
Defined.

(** C6 fails as stated: the sender of a fully rejected move is among the
    receivers of the TASK_MOVED broadcast. *)
Lemma rejected_broadcast_reaches_sender :
  fullyRejected (analyseConflict Sample.T_moved 1 (move_changes Sample.moveB)) = true
  ∧ ("B", TASK_MOVED Sample.T_moved)
      ∈ drop (length (outbox Sample.w_moved))
          (outbox (handleMessage Sample.env "B" (MOVE_TASK Sample.moveB) Sample.w_moved)).
Proof.
  split; [reflexivity|]. vm_compute.
  apply elem_of_cons; right. apply elem_of_cons; right. apply elem_of_cons; left.
  reflexivity.
Qed.

Example scenario5_positions :
  ∃ tbl', rebalanceColumn "t1" todo Scenario5.tbl =
    Ok ([mkTask "T1" "T1" "" todo (Num.of_Z 65536) 2 1 1 1 2 "t0" "t1";
         mkTask "T2" "T2" "" todo (Num.of_Z 131072) 2 1 1 1 2 "t0" "t1";
         mkTask "T3" "T3" "" todo (Num.of_Z 196608) 2 1 1 1 2 "t0" "t1"], tbl').
Proof. eexists. vm_compute. reflexivity. Qed.





Example nan_position_rebalance_orders :
  ((λ t, (id t, position t)) <$> (run mem_step NanMove.ops Scenario5.tbl).2
   = [("T3", Num.of_Z 65536); ("T1", Num.of_Z 131072); ("T2", Num.of_Z 196608)])
  ∧ ((λ t, (id t, position t)) <$> (run sql_step NanMove.ops Scenario5.tbl).2
     = [("T3", Num.of_Z 196608); ("T1", Num.of_Z 65536); ("T2", Num.of_Z 131072)]).
Proof. split; vm_compute; reflexivity. Qed.

(** * Further properties of the code *)

(** ** What an operation does to the rows *)

Lemma select_by_id_elem taskId (tbl : list Task) current rest :
  Sql.select_by_id taskId tbl = current :: rest → current ∈ tbl ∧ id current = taskId.
Proof.
  intros Hsel.
  assert (Hin : current ∈ Sql.select_by_id taskId tbl) by (rewrite Hsel; left).
  by apply list_elem_of_filter in Hin as [? ?].
Qed.

(** The result of [updateTask] when it writes. *)
Lemma updateTask_written now p (tbl : list Task) current rest :
  Sql.select_by_id (u_taskId p) tbl = current :: rest →
  let a := analyseConflict current (u_baseVersion p) (u_changes p) in
  fullyRejected a = false →
  let upd r := with_updatedAt now (update_sets (mergedChanges a) (version current + 1) r) in
  updateTask now p tbl =
    Ok ({| ur_task := upd current; ur_conflict := merged_conflict (upd current) a |},
        (λ r, if decide (id r = u_taskId p) then upd r else r) <$> tbl).
Proof.
  intros Hsel a Hrej upd. unfold updateTask. rewrite Hsel. fold a. rewrite Hrej.
  unfold Sql.update_by_id. rewrite Hsel. reflexivity.
Qed.

(** The result of [moveTask] when it writes. *)
Lemma moveTask_written now p (tbl : list Task) current rest :
  Sql.select_by_id (m_taskId p) tbl = current :: rest →
  let a := analyseConflict current (m_baseVersion p) (move_changes p) in
  fullyRejected a = false →
  let col := default (columnId current) (get_columnId (mergedChanges a)) in
  let pos := default (position current) (get_position (mergedChanges a)) in
  let upd r := with_updatedAt now
                 (with_version (version current + 1)
                    (with_positionVersion (version current + 1)
                       (with_columnVersion (version current + 1)
                          (with_position pos (with_columnId col r))))) in
  let tbl' := (λ r, if decide (id r = m_taskId p) then upd r else r) <$> tbl in
  moveTask now p tbl =
    Ok ({| mr_task := upd current;
           mr_conflict := merged_conflict (upd current) a;
           mr_needsRebalance :=
             existsb (λ n, Num.ltb (Num.abs (Num.sub n pos)) MIN_GAP)
               (nearest_neighbours col (m_taskId p) pos tbl') |}, tbl').
Proof.
  intros Hsel a Hrej col pos upd tbl'. unfold moveTask. rewrite Hsel.
  change [ch_columnId (m_columnId p); ch_position (m_position p)] with (move_changes p).
  fold a. rewrite Hrej. unfold Sql.update_by_id. rewrite Hsel. reflexivity.
Qed.

(** Every row that an operation leaves is an old row, the row of a create
    with all its stamps at 1, or an old row written once: same id and creation
    time, the version advanced by one, each stamp as it was or equal to the
    new version. *)
Lemma run_op_rows op (tbl : list Task) t' :
  NoDup (id <$> tbl) → t' ∈ run_op op tbl →
  t' ∈ tbl
  ∨ (∃ newId now p, op = op_create newId now p ∧ id t' = newId
       ∧ version t' = 1 ∧ ∀ f, FIELD_VERSION_MAP f t' = 1)
  ∨ (∃ t, t ∈ tbl ∧ id t' = id t ∧ createdAt t' = createdAt t
       ∧ version t' = version t + 1
       ∧ ∀ f, FIELD_VERSION_MAP f t' = FIELD_VERSION_MAP f t
              ∨ FIELD_VERSION_MAP f t' = version t + 1).
Proof.
  intros Hnd Hin. destruct op as [newId now p|now p|now p|p|now col]; cbn [run_op] in Hin.
  - unfold createTask, Sql.insert in Hin. cbn [committed] in Hin.
    apply elem_of_app in Hin as [Hin|Hin]; [by left|].
    apply list_elem_of_singleton in Hin as ->. right. left.
    exists newId, now, p. split; [done|]. split; [done|]. split; [done|]. by intros [].
  - destruct (Sql.select_by_id (u_taskId p) tbl) as [|current rest] eqn:Hsel.
    { unfold updateTask in Hin. rewrite Hsel in Hin. by left. }
    destruct (select_by_id_elem _ _ _ _ Hsel) as [Hcur Hid].
    destruct (fullyRejected (analyseConflict current (u_baseVersion p) (u_changes p)))
      eqn:Hrej.
    { unfold updateTask in Hin. rewrite Hsel, Hrej in Hin. by left. }
    rewrite (updateTask_written now p tbl current rest Hsel Hrej) in Hin.
    cbn [committed] in Hin. apply list_elem_of_fmap in Hin as (r & -> & Hr).
    destruct (decide (id r = u_taskId p)) as [Heq|Hne]; [|by left].
    assert (r = current) as -> by (apply (same_id_same_row tbl); congruence).
    right. right. exists current. split; [done|].
    unfold update_sets.
    destruct (get_title _), (get_description _); repeat split; try done;
      intros []; simpl; auto.
  - destruct (Sql.select_by_id (m_taskId p) tbl) as [|current rest] eqn:Hsel.
    { unfold moveTask in Hin. rewrite Hsel in Hin. by left. }
    destruct (select_by_id_elem _ _ _ _ Hsel) as [Hcur Hid].
    destruct (fullyRejected (analyseConflict current (m_baseVersion p) (move_changes p)))
      eqn:Hrej.
    { unfold moveTask in Hin. rewrite Hsel in Hin.
      change [ch_columnId (m_columnId p); ch_position (m_position p)]
        with (move_changes p) in Hin. rewrite Hrej in Hin. by left. }
    rewrite (moveTask_written now p tbl current rest Hsel Hrej) in Hin.
    cbn [committed] in Hin. apply list_elem_of_fmap in Hin as (r & -> & Hr).
    destruct (decide (id r = m_taskId p)) as [Heq|Hne]; [|by left].
    assert (r = current) as -> by (apply (same_id_same_row tbl); congruence).
    right. right. exists current. split; [done|].
    repeat split; try done. intros []; simpl; auto.
  - rewrite deleteTask_table in Hin. apply list_elem_of_filter in Hin as [_ Hin]. by left.
  - rewrite rebalanceColumn_table in Hin by done. unfold rebalanced_table in Hin.
    apply list_elem_of_fmap in Hin as (r & -> & Hr).
    destruct (list_find _ _) as [[k x]|]; [|by left].
    right. right. exists r. split; [done|]. repeat split; try done.
    intros []; simpl; auto.
Qed.

Lemma run_op_NoDup op (tbl : list Task) :
  NoDup (id <$> tbl) → fresh_id op tbl → NoDup (id <$> run_op op tbl).
Proof.
  intros Hnd Hfresh. destruct op as [newId now p|now p|now p|p|now col]; cbn [run_op].
  - unfold createTask, Sql.insert. cbn [committed fresh_id] in *.
    rewrite fmap_app. apply NoDup_app. split; [done|]. split; [|apply NoDup_singleton].
    intros x Hx Hx'. cbn in Hx'. apply list_elem_of_singleton in Hx' as ->. done.
  - destruct (updateTask_table now p tbl) as [->|(f & Hf & ->)]; [done|].
    rewrite ids_fmap; [done|]. intros r. apply Hf.
  - destruct (moveTask_table now p tbl)
      as [->|(res & tbl' & current & upd & Hmove & Hcur & Hid & Hupd & ->)]; [done|].
    rewrite Hmove. cbn [committed]. rewrite ids_fmap; [done|]. intros r.
    destruct (decide (id r = m_taskId p)); [apply Hupd|done].
  - rewrite deleteTask_table.
    eapply sublist_NoDup; [exact Hnd|]. apply fmap_sublist, sublist_filter.
  - rewrite rebalanceColumn_table by done.
    unfold rebalanced_table. rewrite ids_fmap; [done|]. intros r.
    by destruct (list_find _ _) as [[k x]|].
Qed.

(** ** Version stamps *)

(** X1.  In every state reachable from the empty table the ids are unique,
    and every stamp of every row lies between 1 and the row's version. *)
Theorem reachable_stamps_ok (tbl : list Task) :
  reachable tbl → NoDup (id <$> tbl) ∧ ∀ t, t ∈ tbl → stamps_ok t.
Proof.
  induction 1 as [|tbl op Hreach [Hnd Hok] Hfresh].
  - split; [constructor|]. intros t Ht. by apply elem_of_nil in Ht.
  - split; [by apply run_op_NoDup|]. intros t' Ht'.
    destruct (run_op_rows op tbl t' Hnd Ht')
      as [Hold|[(newId & now & p & _ & _ & Hv & Hf)|(t & Ht & _ & _ & Hv & Hf)]].
    + by apply Hok.
    + intros f. rewrite Hf, Hv. lia.
    + intros f. pose proof (Hok t Ht f). destruct (Hf f) as [-> | ->]; lia.
Qed.

Lemma reachable_stamps_ok_witness :
  NoDup (id <$> Collision.tbl2) ∧ ∀ t, t ∈ Collision.tbl2 → stamps_ok t.
Proof.
  apply reachable_stamps_ok.
  apply (reachable_step Collision.tbl1 (op_create "u1" "t2" Collision.createB)).
  - apply (reachable_step [] (op_create "u0" "t1" Collision.createA)).
    + constructor.
    + simpl. apply not_elem_of_nil.
  - vm_compute. intros H. inversion H as [|? ? ? H']. inversion H'.
Defined.

(** X2.  Between two states of one operation a task keeps its id and its
    creation time, and its version stays or advances by exactly one: versions
    never go back. *)
Theorem versions_never_decrease op (tbl : list Task) t t' :
  NoDup (id <$> tbl) → fresh_id op tbl →
  t ∈ tbl → t' ∈ run_op op tbl → id t' = id t →
  createdAt t' = createdAt t ∧ version t ≤ version t' ≤ version t + 1.
Proof.
  intros Hnd Hfresh Ht Ht' Hid.
  destruct (run_op_rows op tbl t' Hnd Ht')
    as [Hold|[(newId & now & p & -> & Hnew & _)|(t0 & Ht0 & Hid0 & Hc & Hv & _)]].
  - assert (t' = t) as -> by (by apply (same_id_same_row tbl)). split; [done|lia].
  - exfalso. cbn [fresh_id] in Hfresh. apply Hfresh.
    apply list_elem_of_fmap. exists t. split; [congruence|done].
  - assert (t0 = t) as -> by (apply (same_id_same_row tbl); congruence).
    split; [done|lia].
Qed.
Lemma versions_never_decrease_witness :
  let t' := mkTask "T1" "T1" "" todo INITIAL_STEP 2 1 1 1 2 "t0" "t3" in
  createdAt t' = createdAt Scenario5.T1
  ∧ version Scenario5.T1 ≤ version t' ≤ version Scenario5.T1 + 1.
Proof.
  apply (versions_never_decrease (op_rebalance "t3" todo) Scenario5.tbl).
  - compute_done.
  - exact I.
  - compute_done.
  - vm_compute. right. left.
  - reflexivity.
Defined.
(** ** Edits by an up-to-date client *)

Lemma analyse_loop_ext (t t' : Task) baseVersion (changes : list Change) :
  ∀ acc,
  (∀ c, c ∈ changes →
     FIELD_VERSION_MAP (change_field c) t' = FIELD_VERSION_MAP (change_field c) t) →
  analyse_loop t' baseVersion changes acc = analyse_loop t baseVersion changes acc.
Proof.
  induction changes as [|c changes IH]; intros [[mc mf] rf] Hfields; [done|].
  cbn [analyse_loop]. rewrite (Hfields c) by left.
  destruct (_ <=? _); apply IH; intros c' Hc'; apply Hfields; by right.
Qed.

Lemma analyseConflict_ext (t t' : Task) baseVersion (changes : list Change) :
  (∀ c, c ∈ changes →
     FIELD_VERSION_MAP (change_field c) t' = FIELD_VERSION_MAP (change_field c) t) →
  analyseConflict t' baseVersion changes = analyseConflict t baseVersion changes.
Proof. intros Hfields. unfold analyseConflict. by rewrite (analyse_loop_ext t t'). Qed.



(** ** Moves and edits of one task *)



Lemma Forall2_fmap_same {A} (R : A → A → Prop) (f : A → A) (l : list A) :
  (∀ x, x ∈ l → R x (f x)) → Forall2 R l (f <$> l).
Proof.
  induction l as [|x l IH]; intros HR; [constructor|].
  rewrite fmap_cons. constructor; [apply HR; left|].
  apply IH. intros y Hy. apply HR. by right.
Qed.

(** X6.  A move leaves an edit alone.  [moveTask] keeps, row by row, the
    id, the title, the description and their stamps, so the conflict analysis
    of any edit (changes over title and description) gives the same result
    after the move as before it. *)
Theorem move_leaves_edit_fields now p (tbl : list Task) res tbl' :
  moveTask now p tbl = Ok (res, tbl') →
  Forall2 (λ t t',
      id t' = id t ∧ title t' = title t ∧ description t' = description t
      ∧ titleVersion t' = titleVersion t
      ∧ descriptionVersion t' = descriptionVersion t
      ∧ ∀ baseVersion changes, update_changes changes →
          analyseConflict t' baseVersion changes = analyseConflict t baseVersion changes)
    tbl tbl'.
Proof.
  intros Hres.
  assert (Hsame : ∀ t t' : Task,
            id t' = id t → title t' = title t → description t' = description t →
            titleVersion t' = titleVersion t →
            descriptionVersion t' = descriptionVersion t →
            id t' = id t ∧ title t' = title t ∧ description t' = description t
            ∧ titleVersion t' = titleVersion t
            ∧ descriptionVersion t' = descriptionVersion t
            ∧ ∀ baseVersion changes, update_changes changes →
                analyseConflict t' baseVersion changes
                = analyseConflict t baseVersion changes).
  { intros t t' ? ? ? Htv Hdv. repeat (split; [done|]).
    intros baseVersion changes [_ Hkeys]. apply analyseConflict_ext.
    rewrite Forall_forall in Hkeys. intros c Hc.
    destruct (Hkeys c Hc) as [-> | ->]; done. }
  destruct (Sql.select_by_id (m_taskId p) tbl) as [|current rest] eqn:Hsel.
  { unfold moveTask in Hres. by rewrite Hsel in Hres. }
  destruct (fullyRejected (analyseConflict current (m_baseVersion p) (move_changes p)))
    eqn:Hrej.
  - unfold moveTask in Hres. rewrite Hsel in Hres.
    change [ch_columnId (m_columnId p); ch_position (m_position p)]
      with (move_changes p) in Hres. rewrite Hrej in Hres. injection Hres as _ <-.
    rewrite <- (list_fmap_id tbl) at 2. apply Forall2_fmap_same.
    intros t _. by apply Hsame.
  - rewrite (moveTask_written now p tbl current rest Hsel Hrej) in Hres.
    injection Hres as _ <-. apply Forall2_fmap_same. intros t _.
    destruct (decide (id t = m_taskId p)); by apply Hsame.
Qed.

Lemma move_leaves_edit_fields_witness :
  Forall2 (λ t t',
      id t' = id t ∧ title t' = title t ∧ description t' = description t
      ∧ titleVersion t' = titleVersion t
      ∧ descriptionVersion t' = descriptionVersion t
      ∧ ∀ baseVersion changes, update_changes changes →
          analyseConflict t' baseVersion changes = analyseConflict t baseVersion changes)
    [Sample.T] [Sample.T_moved].
Proof.
  eapply (move_leaves_edit_fields "t1" Sample.moveA [Sample.T]). reflexivity.
Defined.

(** X7.  An edit leaves a move alone.  [updateTask] keeps, row by row, the
    id, the column, the position and their stamps, so the conflict analysis of
    any move gives the same result after the edit as before it. *)
Theorem edit_leaves_move_fields now p (tbl : list Task) res tbl' :
  updateTask now p tbl = Ok (res, tbl') →
  Forall2 (λ t t',
      id t' = id t ∧ columnId t' = columnId t ∧ position t' = position t
      ∧ columnVersion t' = columnVersion t
      ∧ positionVersion t' = positionVersion t
      ∧ ∀ baseVersion q,
          analyseConflict t' baseVersion (move_changes q)
          = analyseConflict t baseVersion (move_changes q))
    tbl tbl'.
Proof.
  intros Hres.
  assert (Hsame : ∀ t t' : Task,
            id t' = id t → columnId t' = columnId t → position t' = position t →
            columnVersion t' = columnVersion t →
            positionVersion t' = positionVersion t →
            id t' = id t ∧ columnId t' = columnId t ∧ position t' = position t
            ∧ columnVersion t' = columnVersion t
            ∧ positionVersion t' = positionVersion t
            ∧ ∀ baseVersion q,
                analyseConflict t' baseVersion (move_changes q)
                = analyseConflict t baseVersion (move_changes q)).
  { intros t t' ? ? ? Hcv Hpv. repeat (split; [done|]).
    intros baseVersion q. apply analyseConflict_ext. intros c Hc.
    apply elem_of_cons in Hc as [->|Hc]; [done|].
    by apply list_elem_of_singleton in Hc as ->. }
  destruct (Sql.select_by_id (u_taskId p) tbl) as [|current rest] eqn:Hsel.
  { unfold updateTask in Hres. by rewrite Hsel in Hres. }
  destruct (fullyRejected (analyseConflict current (u_baseVersion p) (u_changes p)))
    eqn:Hrej.
  - unfold updateTask in Hres. rewrite Hsel, Hrej in Hres. injection Hres as _ <-.
    rewrite <- (list_fmap_id tbl) at 2. apply Forall2_fmap_same.
    intros t _. by apply Hsame.
  - rewrite (updateTask_written now p tbl current rest Hsel Hrej) in Hres.
    injection Hres as _ <-. apply Forall2_fmap_same. intros t _.
    destruct (decide (id t = u_taskId p)); [|by apply Hsame].
    unfold update_sets. destruct (get_title _), (get_description _); by apply Hsame.
Qed.

Lemma edit_leaves_move_fields_witness :
  Forall2 (λ t t',
      id t' = id t ∧ columnId t' = columnId t ∧ position t' = position t
      ∧ columnVersion t' = columnVersion t
      ∧ positionVersion t' = positionVersion t
      ∧ ∀ baseVersion q,
          analyseConflict t' baseVersion (move_changes q)
          = analyseConflict t baseVersion (move_changes q))
    [Sample.T] [Sample.T_edited].
Proof.
  eapply (edit_leaves_move_fields "t1" Sample.editA [Sample.T]). reflexivity.
Defined.


(** ** Deleting, creating and looking up *)





(** X10.  A created task can be looked up.  With a fresh id, [createTask]
    appends one row and returns it; [getTaskById] finds that row under the new
    id and finds under every other id what it found before; the row has
    version 1, every stamp at 1, the column of the payload, and both
    timestamps equal to the time of the insert. *)
Theorem created_task_is_stored newId now p (tbl : list Task) :
  newId ∉ id <$> tbl →
  ∃ row,
    createTask newId now p tbl = Ok (row, tbl ++ [row])
    ∧ getTaskById newId (tbl ++ [row]) = Some row
    ∧ (∀ other, other ≠ newId → getTaskById other (tbl ++ [row]) = getTaskById other tbl)
    ∧ version row = 1 ∧ (∀ f, FIELD_VERSION_MAP f row = 1)
    ∧ columnId row = c_columnId p ∧ description row = c_description p
    ∧ createdAt row = now ∧ updatedAt row = now.
Proof.
  intros Hfresh. unfold createTask, Sql.insert, getTaskById, Sql.select_by_id.
  eexists. split; [reflexivity|]. split; [|split].
  - rewrite filter_app. fold (Sql.select_by_id newId tbl).
    rewrite select_by_id_absent by done.
    by rewrite filter_cons, decide_True.
  - intros other Hne. rewrite filter_app, filter_cons, decide_False by (cbn; congruence).
    by rewrite filter_nil, app_nil_r.
  - repeat split; try done. by intros [].
Qed.

Lemma created_task_is_stored_witness :
  ∃ row,
    createTask "u0" "t1" Collision.createA [] = Ok (row, [] ++ [row])
    ∧ getTaskById "u0" ([] ++ [row]) = Some row
    ∧ (∀ other, other ≠ "u0" → getTaskById other ([] ++ [row]) = getTaskById other [])
    ∧ version row = 1 ∧ (∀ f, FIELD_VERSION_MAP f row = 1)
    ∧ columnId row = todo ∧ description row = ""
    ∧ createdAt row = "t1" ∧ updatedAt row = "t1".
Proof.
  apply (created_task_is_stored "u0" "t1" Collision.createA []). apply not_elem_of_nil.
Defined.

(** ** The title of a created task *)






(** ** Reading the board *)

Lemma board_le_order a b : board_le a b = true ↔ board_order a b.
Proof.
  unfold board_le, board_order.
  destruct (columnId a), (columnId b); cbn; split; intros H;
    try done; try (left; lia); try (by right);
    destruct H as [H|[H H']]; try lia; try done.
Qed.

Lemma board_le_total a b : board_le a b = true ∨ board_le b a = true.
Proof.
  unfold board_le. destruct (columnId a), (columnId b); cbn; auto;
    apply float8_le_total.
Qed.

(** X12.  [getAllTasks] returns every row of the table exactly once, the
    columns in the alphabetical order of their names (done, inprogress, todo)
    and the tasks of a column by ascending position. *)
Theorem getAllTasks_sorted_board (tbl : list Task) :
  getAllTasks tbl ≡ₚ tbl ∧ Sorted board_order (getAllTasks tbl).
Proof.
  split; [apply (foldr_insert_by_perm board_le)|].
  pose proof (foldr_insert_by_sorted board_le board_le_total tbl) as Hs.
  change (Sorted (λ a b, board_le a b = true) (getAllTasks tbl)) in Hs. revert Hs. generalize (getAllTasks tbl). intros rows Hs.
  induction Hs as [|x l Hs IH Hhd]; constructor; [done|].
  destruct Hhd as [|y l Hxy]; constructor. by apply board_le_order.
Qed.




(** ** The broadcaster *)

Lemma broadcast_elem message skip (conns : Connections) c m :
  (c, m) ∈ broadcast message skip conns ↔
  m = message ∧ (c, OPEN) ∈ conns ∧ Some c ≠ skip.
Proof.
  induction conns as [|[clientId ws] conns IH]; cbn [broadcast].
  - rewrite elem_of_nil. split; [done|]. intros (_ & H & _). by apply elem_of_nil in H.
  - destruct (decide (Some clientId = skip)) as [Hskip|Hskip].
    + rewrite IH, elem_of_cons. split.
      * intros (-> & Hin & Hne). auto.
      * intros (-> & [[= -> ->]|Hin] & Hne); [done|auto].
    + destruct (decide (ws = OPEN)) as [->|Hws].
      * rewrite !elem_of_cons, IH. split.
        -- intros [[= -> ->]|(-> & Hin & Hne)]; auto.
        -- intros (-> & [[= ->]|Hin] & Hne); auto.
      * rewrite IH, elem_of_cons. split.
        -- intros (-> & Hin & Hne). auto.
        -- intros (-> & [[= -> Hopen]|Hin] & Hne); [by destruct Hws|auto].
Qed.

Lemma broadcast_keys message skip (conns : Connections) :
  sublist (fst <$> broadcast message skip conns) (fst <$> conns).
Proof.
  induction conns as [|[clientId ws] conns IH]; [done|]. cbn [broadcast].
  destruct (decide (Some clientId = skip)); [by apply sublist_cons|].
  destruct (decide (ws = OPEN)); [|by apply sublist_cons].
  rewrite !fmap_cons. by apply sublist_skip.
Qed.

(** X14.  [broadcast] reaches each client once: a message goes to a client
    exactly when it is the broadcast message, the client is registered with an
    open socket, and the client is not the skipped one; with one socket per
    client id no client gets it twice. *)
Theorem broadcast_reaches_open_once message skip (conns : Connections) :
  NoDup (fst <$> conns) →
  (∀ c m, (c, m) ∈ broadcast message skip conns ↔
     m = message ∧ (c, OPEN) ∈ conns ∧ Some c ≠ skip)
  ∧ NoDup (fst <$> broadcast message skip conns).
Proof.
  intros Hnd. split; [intros c m; apply broadcast_elem|].
  eapply sublist_NoDup; [exact Hnd|apply broadcast_keys].
Qed.

Lemma broadcast_reaches_open_once_witness :
  (∀ c m, (c, m) ∈ broadcast (TASK_DELETED "T") (Some "A") (connections Sample.w0) ↔
     m = TASK_DELETED "T" ∧ (c, OPEN) ∈ connections Sample.w0 ∧ Some c ≠ Some "A")
  ∧ NoDup (fst <$> broadcast (TASK_DELETED "T") (Some "A") (connections Sample.w0)).
Proof.
  apply broadcast_reaches_open_once. compute_done.
Defined.

(** ** Connecting and disconnecting *)

Lemma getConnection_register clientId ws (conns : Connections) :
  getConnection clientId (registerConnection clientId ws conns) = Some ws.
Proof.
  unfold getConnection, registerConnection.
  destruct (list_find _ conns) as [[i kv]|] eqn:Hfind.
  - apply list_find_Some in Hfind as (Hi & Hkey & Hbefore).
    assert (Hf : list_find (λ kv : string * ReadyState, kv.1 = clientId)
                   (<[i:=(clientId, ws)]> conns) = Some (i, (clientId, ws))).
    { apply list_find_Some. split; [|split; [done|]].
      - apply list_lookup_insert_eq. by eapply lookup_lt_Some.
      - intros j y Hj Hlt. rewrite list_lookup_insert_ne in Hj by lia. by eapply Hbefore. }
    by rewrite Hf.
  - apply list_find_None in Hfind.
    assert (Hf : list_find (λ kv : string * ReadyState, kv.1 = clientId)
                   (conns ++ [(clientId, ws)]) = Some (length conns, (clientId, ws))).
    { apply list_find_Some. split; [|split; [done|]].
      - by rewrite lookup_app_r, Nat.sub_diag by done.
      - intros j y Hj Hlt. rewrite lookup_app_l in Hj by done.
        rewrite Forall_forall in Hfind. apply Hfind. by eapply list_elem_of_lookup_2. }
    by rewrite Hf.
Qed.

Lemma getConnection_None clientId (conns : Connections) :
  getConnection clientId conns = None ↔ clientId ∉ fst <$> conns.
Proof.
  unfold getConnection. destruct (list_find _ conns) as [[i kv]|] eqn:Hfind.
  - split; [done|]. intros Hnin. exfalso. apply Hnin.
    apply list_find_Some in Hfind as (Hi & Hkey & _).
    apply list_elem_of_fmap. exists kv. split; [done|]. by eapply list_elem_of_lookup_2.
  - split; [|done]. intros _ (kv & -> & Hkv)%list_elem_of_fmap.
    apply list_find_None in Hfind. rewrite Forall_forall in Hfind. by apply (Hfind kv).
Qed.

Lemma unregister_keys clientId (conns : Connections) :
  clientId ∉ fst <$> unregisterConnection clientId conns.
Proof.
  intros (kv & -> & Hkv)%list_elem_of_fmap.
  by apply list_elem_of_filter in Hkv as [Hne _].
Qed.

(** X15.  A client that disconnected gets nothing.  After the close handler
    of a client id has run, whichever socket of that id closed, the id has no
    connection and no presence entry, [sendTo] puts nothing on the wire for
    it, and no broadcast reaches it; the close itself tells the remaining open
    clients the new presence list and changes no task. *)
Theorem closed_client_gets_nothing clientId (s : Server) :
  let w' := world (onClose clientId s) in
  getConnection clientId (connections w') = None
  ∧ hasUser clientId (presence w') = false
  ∧ db w' = db (world s)
  ∧ outbox w' = outbox (world s)
                ++ broadcastAll (PRESENCE_UPDATE (presence w')) (connections w')
  ∧ (∀ m, sendTo clientId m (connections w') = [])
  ∧ (∀ m skip m', (clientId, m') ∉ broadcast m skip (connections w')).
Proof.
  cbn. pose proof (unregister_keys clientId (connections (world s))) as Hkeys.
  assert (Hnone : getConnection clientId
                    (unregisterConnection clientId (connections (world s))) = None)
    by (by apply getConnection_None).
  split; [done|]. split.
  { apply bool_decide_eq_false. intros (u & -> & Hu)%list_elem_of_fmap.
    by apply list_elem_of_filter in Hu as [Hne _]. }
  split; [done|]. split; [done|]. split.
  - intros m. unfold sendTo. by rewrite Hnone.
  - intros m skip m' (_ & Hin & _)%broadcast_elem. apply Hkeys.
    apply list_elem_of_fmap. by exists (clientId, OPEN).
Qed.
Lemma presence_set_elem user (presenceMap : list PresenceUser) :
  user ∈ presence_set user presenceMap.
Proof.
  unfold presence_set. destruct (list_find _ presenceMap) as [[i u]|] eqn:Hfind.
  - apply list_find_Some in Hfind as (Hi & _ & _).
    apply (list_elem_of_lookup_2 _ i). apply list_lookup_insert_eq. by eapply lookup_lt_Some.
  - apply elem_of_app. right. left.
Qed.

(** X16.  A newcomer gets the board, the others get the presence.  The
    connection handler registers the client with an open socket and a presence
    entry, changes no task, and puts on the wire first the INITIAL_STATE for
    the new client, whose presence list holds the client itself, then one
    PRESENCE_UPDATE for each other open client; the new client gets no
    PRESENCE_UPDATE. *)
Theorem newcomer_gets_initial_state clientId username now (s : Server) :
  let w' := world (onConnection clientId username now s) in
  getConnection clientId (connections w') = Some OPEN
  ∧ hasUser clientId (presence w') = true
  ∧ db w' = db (world s)
  ∧ outbox w' =
      outbox (world s)
      ++ (clientId, INITIAL_STATE (getAllTasks (db w')) (presence w'))
         :: broadcast (PRESENCE_UPDATE (presence w')) (Some clientId) (connections w')
  ∧ ∀ m, (clientId, m) ∉
           broadcast (PRESENCE_UPDATE (presence w')) (Some clientId) (connections w').
Proof.
  cbn. pose proof (getConnection_register clientId OPEN (connections (world s))) as Hreg.
  split; [done|]. split.
  { apply bool_decide_eq_true. apply list_elem_of_fmap.
    eexists. split; [|apply presence_set_elem]. done. }
  split; [done|]. split.
  - unfold sendTo. rewrite Hreg. by rewrite <- app_assoc.
  - intros m (_ & _ & Hne)%broadcast_elem. by apply Hne.
Qed.

Lemma unregister_register clientId ws (conns : Connections) :
  clientId ∉ fst <$> conns →
  unregisterConnection clientId (registerConnection clientId ws conns) = conns.
Proof.
  intros Hnin. unfold registerConnection.
  pose proof (proj2 (getConnection_None clientId conns) Hnin) as Hnone.
  unfold getConnection in Hnone.
  destruct (list_find _ conns) as [[i kv]|]; [done|].
  unfold unregisterConnection. rewrite filter_app, filter_cons, decide_False
    by (intros Hne; by apply Hne).
  rewrite filter_nil, app_nil_r. clear Hnone.
  induction conns as [|kv conns IH]; [done|].
  rewrite fmap_cons in Hnin. apply not_elem_of_cons in Hnin as [Hne Hnin].
  rewrite filter_cons, decide_True by done. f_equal. by apply IH.
Qed.

Lemma removeUser_presence_set user (presenceMap : list PresenceUser) :
  p_clientId user ∉ p_clientId <$> presenceMap →
  removeUser (p_clientId user) (presence_set user presenceMap) = presenceMap.
Proof.
  intros Hnin. unfold presence_set.
  destruct (list_find _ presenceMap) as [[i u]|] eqn:Hfind.
  { exfalso. apply Hnin. apply list_find_Some in Hfind as (Hi & Hkey & _).
    apply list_elem_of_fmap. exists u. split; [done|]. by eapply list_elem_of_lookup_2. }
  unfold removeUser. rewrite filter_app, filter_cons, decide_False
    by (intros Hne; by apply Hne).
  rewrite filter_nil, app_nil_r. clear Hfind.
  induction presenceMap as [|u pm IH]; [done|].
  rewrite fmap_cons in Hnin. apply not_elem_of_cons in Hnin as [Hne Hnin].
  rewrite filter_cons, decide_True by done. f_equal. by apply IH.
Qed.

(** X17.  Connecting and disconnecting undo each other.  For a client id
    that is neither registered nor present, the close handler after the
    connection handler leaves the connections, the presence map and the tasks
    as they were before the client came; only the colour counter has moved. *)
Theorem connect_then_close clientId username now (s : Server) :
  clientId ∉ fst <$> connections (world s) →
  clientId ∉ p_clientId <$> presence (world s) →
  let s' := onClose clientId (onConnection clientId username now s) in
  connections (world s') = connections (world s)
  ∧ presence (world s') = presence (world s)
  ∧ db (world s') = db (world s)
  ∧ colorIndex s' = S (colorIndex s).
Proof.
  intros Hconn Hpres. unfold onClose, onConnection, addUser, nextColor, emit.
  cbn [world connections presence db outbox tick colorIndex].
  rewrite unregister_register by done.
  split; [done|]. split; [|done].
  by rewrite (removeUser_presence_set
    (mkPresence clientId username _ None None now) (presence (world s))).
Qed.

Lemma connect_then_close_witness :
  let s' := onClose "D" (onConnection "D" "Dana" "t1" (mkServer Sample.w0 0)) in
  connections (world s') = connections Sample.w0
  ∧ presence (world s') = presence Sample.w0
  ∧ db (world s') = db Sample.w0
  ∧ colorIndex s' = 1%nat.
Proof.
  apply (connect_then_close "D" "Dana" "t1" (mkServer Sample.w0 0)); compute_done.
Defined.

(** ** Presence *)

Lemma COLORS_lookup (i j : nat) :
  (i < 8)%nat → (j < 8)%nat → COLORS !! i = COLORS !! j → i = j.
Proof.
  intros Hi Hj Heq.
  destruct (COLORS !! i) as [c|] eqn:Hc.
  - eapply (NoDup_lookup COLORS); [compute_done|exact Hc|by rewrite Heq].
  - apply lookup_ge_None in Hc. simpl in Hc. lia.
Qed.

(** X18.  Colours go round in eights.  [addUser] always finds a colour, it
    advances the colour counter by one, and two users get the same colour
    exactly when the counter values at which they were added differ by a
    multiple of 8. *)
Theorem colours_cycle c1 u1 t1 pm1 c2 u2 t2 pm2 (i j : nat) :
  let '(user1, _, i') := addUser c1 u1 t1 pm1 i in
  let '(user2, _, _) := addUser c2 u2 t2 pm2 j in
  i' = S i
  ∧ p_color user1 ∈ COLORS
  ∧ (p_color user1 = p_color user2 ↔ (i mod 8 = j mod 8)%nat).
Proof.
  unfold addUser, nextColor. cbn [p_color length COLORS].
  change (length COLORS) with 8%nat.
  assert (Hi : (i mod 8 < 8)%nat) by (apply Nat.mod_upper_bound; lia).
  assert (Hj : (j mod 8 < 8)%nat) by (apply Nat.mod_upper_bound; lia).
  destruct (COLORS !! (i mod 8)%nat) as [ci|] eqn:Hci;
    [|apply lookup_ge_None in Hci; simpl in Hci; lia].
  destruct (COLORS !! (j mod 8)%nat) as [cj|] eqn:Hcj;
    [|apply lookup_ge_None in Hcj; simpl in Hcj; lia].
  change (default "" (Some ci)) with ci. change (default "" (Some cj)) with cj.
  split; [done|]. split; [by eapply list_elem_of_lookup_2|].
  split.
  - intros ->. apply COLORS_lookup; [done|done|congruence].
  - intros Heq. rewrite Heq in Hci. congruence.
Qed.

(** X19.  A presence update touches one user.  [updateUser] keeps the
    users, their order, their client ids, colours and connection times; users
    other than the named one are untouched, and for an unknown client id the
    map is left as it is. *)
Theorem updateUser_touches_one clientId update (presenceMap : list PresenceUser) :
  Forall2 (λ u u',
      p_clientId u' = p_clientId u ∧ p_color u' = p_color u
      ∧ p_connectedAt u' = p_connectedAt u
      ∧ (p_clientId u ≠ clientId → u' = u))
    presenceMap (updateUser clientId update presenceMap)
  ∧ (clientId ∉ p_clientId <$> presenceMap →
     updateUser clientId update presenceMap = presenceMap).
Proof.
  induction presenceMap as [|u pm [IH1 IH2]]; [split; [constructor|done]|].
  cbn [updateUser]. destruct (decide (p_clientId u = clientId)) as [Heq|Hne].
  - split.
    + constructor; [done|]. clear. induction pm; by constructor.
    + rewrite fmap_cons. intros Hnin. apply not_elem_of_cons in Hnin as [Hn _]. congruence.
  - split.
    + constructor; [done|exact IH1].
    + rewrite fmap_cons. intros Hnin. apply not_elem_of_cons in Hnin as [_ Hnin].
      f_equal. by apply IH2.
Qed.
(** ** The router *)

Lemma continues_refl w : continues w w.
Proof. split; [done|]. exists []. by rewrite app_nil_r. Qed.

Lemma continues_trans w1 w2 w3 : continues w1 w2 → continues w2 w3 → continues w1 w3.
Proof.
  intros [Hc1 (o1 & Ho1 & Hf1)] [Hc2 (o2 & Ho2 & Hf2)]. split; [congruence|].
  exists (o1 ++ o2). split; [by rewrite Ho2, Ho1, app_assoc|].
  apply Forall_app. split; [done|]. by rewrite <- Hc1.
Qed.

Lemma sendTo_open clientId message (conns : Connections) :
  Forall (to_open conns) (sendTo clientId message conns).
Proof.
  unfold sendTo, getConnection.
  destruct (list_find _ conns) as [[i [c ws]]|] eqn:Hfind; [|constructor].
  apply list_find_Some in Hfind as (Hi & Hkey & _). simpl in Hkey. subst c.
  destruct ws; cbn; repeat constructor.
  unfold to_open. cbn. by eapply list_elem_of_lookup_2.
Qed.

Lemma broadcast_open message skip (conns : Connections) :
  Forall (to_open conns) (broadcast message skip conns).
Proof.
  apply Forall_forall. intros [c m] (_ & Hin & _)%broadcast_elem. exact Hin.
Qed.

Lemma continues_sendTo clientId message w :
  continues w (emit (sendTo clientId message (connections w)) w).
Proof. split; [done|]. eexists. split; [done|]. apply sendTo_open. Qed.

Lemma continues_broadcast message skip w :
  continues w (emit (broadcast message skip (connections w)) w).
Proof. split; [done|]. eexists. split; [done|]. apply broadcast_open. Qed.

Lemma continues_set_db tbl w : continues w (set_db tbl w).
Proof. split; [done|]. exists []. by rewrite app_nil_r. Qed.

Ltac continues_step :=
  repeat first
    [ apply continues_refl
    | eapply continues_trans; [|apply continues_sendTo]
    | eapply continues_trans; [|apply continues_broadcast]
    | eapply continues_trans; [|apply continues_set_db] ].

Lemma guarded_continues clientId (h : Handler) w :
  continues w (h w).1 → continues w (guarded clientId h w).
Proof.
  intros Hh. unfold guarded. destruct (h w) as [w' [message|]]; [|done].
  eapply continues_trans; [exact Hh|apply continues_sendTo].
Qed.

Lemma handleCreateTask_continues env clientId p w :
  continues w (handleCreateTask env clientId p w).1.
Proof.
  unfold handleCreateTask. destruct (createTask _ _ _ _) as [[task tbl]|e]; cbn [fst].
  - unfold broadcastAll. continues_step.
  - apply continues_refl.
Qed.

Lemma handleUpdateTask_continues env clientId p w :
  continues w (handleUpdateTask env clientId p w).1.
Proof.
  unfold handleUpdateTask. destruct (updateTask _ _ _) as [[res tbl]|e]; cbn [fst];
    [|apply continues_refl].
  destruct (ur_conflict res) as [conflict|]; [destruct (cr_resolution conflict)|];
    cbn [fst]; unfold broadcastAll; continues_step.
Qed.

Lemma handleMoveTask_continues env clientId p w :
  continues w (handleMoveTask env clientId p w).1.
Proof.
  unfold handleMoveTask. destruct (moveTask _ _ _) as [[res tbl]|e]; cbn [fst];
    [|apply continues_refl].
  set (w1 := match mr_conflict res with
             | Some conflict => emit (sendTo clientId (CONFLICT_RESOLVED conflict)
                                        (connections (set_db tbl w))) (set_db tbl w)
             | None => set_db tbl w
             end).
  assert (H1 : continues w w1).
  { unfold w1. destruct (mr_conflict res); [|apply continues_set_db].
    eapply continues_trans; [apply continues_set_db|apply continues_sendTo]. }
  destruct (match mr_conflict res with
            | Some conflict => bool_decide (cr_resolution conflict = REJECTED)
            | None => false
            end); cbn [fst].
  { eapply continues_trans; [exact H1|apply continues_broadcast]. }
  assert (H2 : continues w (emit (broadcastAll (TASK_MOVED (mr_task res)) (connections w1)) w1)).
  { eapply continues_trans; [exact H1|apply continues_broadcast]. }
  destruct (mr_needsRebalance res); [|exact H2].
  destruct (rebalanceColumn _ _ _) as [[updatedTasks tbl']|e]; cbn [fst]; [|exact H2].
  eapply continues_trans; [exact H2|]. unfold broadcastAll.
  eapply continues_trans; [apply continues_set_db|apply continues_broadcast].
Qed.

Lemma handleDeleteTask_continues clientId p w :
  continues w (handleDeleteTask clientId p w).1.
Proof.
  unfold handleDeleteTask. destruct (deleteTask _ _) as [[res tbl]|e]; cbn [fst];
    [|apply continues_refl].
  destruct (negb (dr_deleted res)); cbn [fst]; unfold broadcastAll; continues_step.
Qed.

Lemma handleQueued_continues env clientId op w :
  continues w (handleQueued env clientId op w).
Proof.
  destruct op; cbn [handleQueued]; apply guarded_continues;
    [apply handleCreateTask_continues|apply handleUpdateTask_continues
    |apply handleDeleteTask_continues|apply handleMoveTask_continues].
Qed.

Lemma replay_continues env clientId ops : ∀ w,
  continues w (foldl (λ w op, handleQueued env clientId op w) w ops).
Proof.
  induction ops as [|op ops IH]; intros w; [apply continues_refl|].
  cbn [foldl]. eapply continues_trans; [apply handleQueued_continues|apply IH].
Qed.

(** X20.  The router only talks to open sockets.  Whatever the message,
    [handleMessage] leaves the connection registry as it is, removes nothing
    from what was sent, and every message it adds goes to a registered client
    whose socket is open. *)
Theorem handleMessage_sends_to_open env clientId message w :
  let w' := handleMessage env clientId message w in
  connections w' = connections w
  ∧ ∃ out, outbox w' = outbox w ++ out
           ∧ ∀ c m, (c, m) ∈ out → (c, OPEN) ∈ connections w.
Proof.
  assert (H : continues w (handleMessage env clientId message w)).
  { destruct message; cbn [handleMessage]; try apply guarded_continues; cbn [fst].
    - apply continues_sendTo.
    - apply handleCreateTask_continues.
    - apply handleUpdateTask_continues.
    - apply handleMoveTask_continues.
    - apply handleDeleteTask_continues.
    - unfold handlePresenceUpdate. cbn [fst]. unfold broadcastAll.
      eapply continues_trans; [|apply continues_broadcast].
      split; [done|]. exists []. by rewrite app_nil_r.
    - apply replay_continues.
    - apply continues_sendTo.
    - apply continues_sendTo. }
  destruct H as [Hc (out & Hout & Hopen)]. split; [done|].
  exists out. split; [done|]. intros c m Hin.
  rewrite Forall_forall in Hopen. exact (Hopen (c, m) Hin).
Qed.


(** ** Positions computed by the client *)

(** X23.  The client mirrors the server.  Whenever the server's
    [positionBetween] returns a position, the client's returns the same one;
    when the server reports an exhausted gap, the client still answers with a
    number. *)
Theorem client_positionBetween_mirrors before after p :
  positionBetween before after = Some p → Client.positionBetween before after = p.
Proof.
  unfold positionBetween, Client.positionBetween.
  destruct before as [b|], after as [a|]; try (by intros [= <-]).
  - destruct (Num.ltb _ _); [done|by intros [= <-]].
  - destruct (Num.ltb _ _); [done|by intros [= <-]].
Qed.

Lemma client_positionBetween_mirrors_witness :
  Client.positionBetween (Some Num.one) (Some Num.two) = Num.dyadic 3 (-1).
Proof. apply client_positionBetween_mirrors. reflexivity. Defined.

(** X24.  [positionForIndex] by cases.  For an index outside [0, length],
    and for an empty array at any index, both neighbours are missing and the
    result is INITIAL_STEP; index 0 of a non-empty array gives half the first
    position; the index [length] gives the last position plus INITIAL_STEP;
    an index strictly inside gives the midpoint formula on its two
    neighbours. *)
Theorem positionForIndex_cases (l : list number) (i : Z) :
  (i < 0 ∨ Z.of_nat (length l) < i ∨ l = [] →
   Client.positionForIndex l i = INITIAL_STEP)
  ∧ (∀ first rest, l = first :: rest →
       Client.positionForIndex l 0 = Num.div first Num.two)
  ∧ (∀ last, l !! (length l - 1)%nat = Some last → l ≠ [] →
       Client.positionForIndex l (Z.of_nat (length l)) = Num.add last INITIAL_STEP)
  ∧ (∀ b a, 0 < i → l !! Z.to_nat (i - 1) = Some b → l !! Z.to_nat i = Some a →
       Client.positionForIndex l i = Num.add b (Num.div (Num.sub a b) Num.two)).
Proof.
  unfold Client.positionForIndex, Client.at_index. split; [|split; [|split]].
  - intros [Hneg|[Hbig| ->]].
    + destruct (Z.ltb_spec (i - 1) 0), (Z.ltb_spec i 0); try lia. done.
    + destruct (Z.ltb_spec (i - 1) 0), (Z.ltb_spec i 0); try lia.
      rewrite !lookup_ge_None_2 by lia. done.
    + destruct (i - 1 <? 0), (i <? 0); by rewrite ?lookup_nil.
  - intros first rest ->. done.
  - intros last Hlast Hne.
    assert (0 < length l)%nat by (destruct l; [done|simpl; lia]).
    destruct (Z.ltb_spec (Z.of_nat (length l) - 1) 0), (Z.ltb_spec (Z.of_nat (length l)) 0);
      try lia.
    replace (Z.to_nat (Z.of_nat (length l) - 1)) with (length l - 1)%nat by lia.
    rewrite Hlast, Nat2Z.id, lookup_ge_None_2 by lia. done.
  - intros b a Hi Hb Ha.
    destruct (Z.ltb_spec (i - 1) 0), (Z.ltb_spec i 0); try lia.
    by rewrite Hb, Ha.
Qed.

(** X25.  The client's end position is the server's.  For a create whose
    payload position is not above zero, the stored position is what the
    client's [positionAtEnd] gives on the positions of the column, computed
    with [Math.max] there and with [MAX(position)] in the database. *)
Theorem client_positionAtEnd_is_stored newId now p (tbl : list Task) :
  Num.gtb (c_position p) Num.zero = false →
  ∃ row tbl',
    createTask newId now p tbl = Ok (row, tbl')
    ∧ position row
      = Client.positionAtEnd (position <$> filter (λ t, columnId t = c_columnId p) tbl).
Proof.
  intros Hpos. unfold createTask, Sql.insert. rewrite Hpos.
  eexists _, _. split; [reflexivity|]. cbn [position].
  symmetry. apply (positionAtEnd_agree (c_columnId p) tbl).
Qed.

Lemma client_positionAtEnd_is_stored_witness :
  ∃ row tbl',
    createTask "u3" "t1" (mkCreate "A" "tmp1" "T4" "" todo Num.zero) Scenario5.tbl
      = Ok (row, tbl')
    ∧ position row
      = Client.positionAtEnd (position <$> filter (λ t, columnId t = todo) Scenario5.tbl).
Proof.
  apply (client_positionAtEnd_is_stored "u3" "t1"
           (mkCreate "A" "tmp1" "T4" "" todo Num.zero) Scenario5.tbl).
  reflexivity.
Defined.

Lemma default_last_cons {A} (x y : A) (l : list A) :
  default x (last (y :: l)) = default y (last l).
Proof.
  destruct l as [|z l]; [done|]. change (last (y :: z :: l)) with (last (z :: l)).
  destruct (last (z :: l)) eqn:Hl; [done|]. by apply last_None in Hl.
Qed.

Lemma float8_max_sorted x (l : list number) :
  Sorted (λ a b, Sql.float8_le a b = true) (x :: l) →
  foldl (λ acc y, if Sql.float8_le acc y then y else acc) x l = default x (last l).
Proof.
  revert x. induction l as [|y l IH]; intros x Hs; [done|].
  apply Sorted_inv in Hs as [Hs Hhd]. apply HdRel_inv in Hhd.
  cbn [foldl]. by rewrite Hhd, (IH y Hs), default_last_cons.
Qed.

(** X26.  Dropping at the end.  For a non-empty array of positions in
    ascending order, [positionForIndex] at the index after the last element
    gives what [positionAtEnd] gives. *)
Theorem positionForIndex_at_end (l : list number) :
  l ≠ [] → Sorted (λ a b, Sql.float8_le a b = true) l →
  Client.positionForIndex l (Z.of_nat (length l)) = Client.positionAtEnd l.
Proof.
  intros Hne Hs. destruct l as [|x l]; [done|].
  unfold Client.positionForIndex, Client.at_index, Client.positionAtEnd.
  destruct (Z.ltb_spec (Z.of_nat (length (x :: l)) - 1) 0),
           (Z.ltb_spec (Z.of_nat (length (x :: l))) 0); try (simpl in *; lia).
  rewrite Nat2Z.id, (lookup_ge_None_2 (x :: l) (length (x :: l))) by lia.
  replace (Z.to_nat (Z.of_nat (length (x :: l)) - 1)) with (length l) by (simpl; lia).
  assert (Hlast : (x :: l) !! length l = Some (default x (last l))).
  { clear. revert x. induction l as [|y l IH]; intros x; [done|].
    cbn [length]. change ((x :: y :: l) !! S (length l)) with ((y :: l) !! length l).
    by rewrite IH, default_last_cons. }
  rewrite Hlast. cbn [Client.positionBetween length Nat.eqb].
  unfold Mem.math_max. cbn [foldl]. rewrite math_max_step_first.
  rewrite <- (float8_max_sorted x l Hs).
  apply add_step_zsim, foldl_max_zsim, zsim_refl.
Qed.

Lemma positionForIndex_at_end_witness :
  Client.positionForIndex [Num.one; d1_3; d1_6] 3 = Client.positionAtEnd [Num.one; d1_3; d1_6].
Proof.
  apply (positionForIndex_at_end [Num.one; d1_3; d1_6]); [done|].
  repeat constructor.
Defined.

(** ** The exhausted gap *)

Lemma sub_ok x y : ok x → ok y → finite x → finite y → Num.is_nan (Num.sub x y) = false.
Proof.
  intros [Hvx _] [Hvy _] Hfx Hfy.
  destruct x as [sx| | |sx mx ex], y as [sy| | |sy my ey]; try done;
    try (repeat match goal with b : bool |- _ => destruct b end; reflexivity).
  unfold Num.sub, SFsub.
  apply valid_exponent in Hvx. apply valid_exponent in Hvy.
  apply binary_normalize_ok. lia.
Qed.

Lemma not_above_zero_below_gap x :
  Num.is_nan x = false → Num.gtb x Num.zero = false → Num.ltb x MIN_GAP = true.
Proof. by destruct x as [[]|[]| |[]]. Qed.

(** X27.  No position between neighbours in the wrong order.  For finite
    positions with [after] not above [before], equal positions included,
    [positionBetween] reports the exhausted gap (null), the signal to
    rebalance. *)
Theorem positionBetween_wrong_order before after :
  ok before → ok after → finite before → finite after →
  Sql.float8_le after before = true →
  positionBetween (Some before) (Some after) = None.
Proof.
  intros Hb Ha Hfb Hfa Hle. unfold positionBetween.
  rewrite not_above_zero_below_gap; [done|by apply sub_ok|].
  by rewrite sub_gt_zero, Hle.
Qed.

Lemma positionBetween_wrong_order_witness :
  positionBetween (Some d1_6) (Some d1_3) = None.
Proof. by apply positionBetween_wrong_order. Defined.

(** ** Moves by an up-to-date client *)


(** ** Reading a column back after a rebalance *)













